(** * StormyDB: wire codec, command engine and append-only log

    A shallow embedding of [resp.go], [handlers.go], [aof.go] and the
    replay / dispatch code of [main.go].

    Conventions.
    - A Go [string] is a [string] (a sequence of 8-bit characters); a Go
      [[]byte] is a [list ascii].
    - A Go [int] is a 64-bit two's-complement integer, held in [Z]; the one
      arithmetic operation of the program ([intValue++]) wraps with [wrap64].
    - A Go function returning [(T, error)] returns a [result T]; a run-time
      panic (index out of range, [make] with a negative length) is the
      outcome [Panic].
    - The two package-level maps [SETs] and [HSETs] are the two fields of a
      [Store] that every handler receives and returns. *)

From Stdlib Require Import ZArith Lia Ascii String.
From stdpp Require Import base option list strings gmap fin_maps.

Local Open Scope string_scope.
Local Open Scope Z_scope.
Local Open Scope list_scope.

(** ** Bytes *)

Abbreviation bytes := (list ascii).

Definition CR : ascii := ascii_of_nat 13.
Definition LF : ascii := ascii_of_nat 10.
Definition NUL : ascii := ascii_of_nat 0.

Definition bytes_of (s : string) : bytes := list_ascii_of_string s.
Definition string_of (b : bytes) : string := string_of_list_ascii b.

(** ** Errors and results *)

Inductive error : Type :=
  | EOF         (* io.EOF *)
  | ErrSyntax   (* strconv.ErrSyntax, wrapped in a *NumError *)
  | ErrRange.   (* strconv.ErrRange, wrapped in a *NumError *)

Inductive result (A : Type) : Type :=
  | Ok (a : A)
  | Err (e : error)
  | Panic.
Arguments Ok {A} a.
Arguments Err {A} e.
Arguments Panic {A}.

(** ** strconv *)

Module strconv.

Definition minInt64 : Z := - 2 ^ 63.
Definition maxInt64 : Z := 2 ^ 63 - 1.

Definition inInt64 (z : Z) : bool := (minInt64 <=? z) && (z <=? maxInt64).

(** Two's-complement wrap-around of a 64-bit signed integer. *)
Definition wrap64 (z : Z) : Z := (z + 2 ^ 63) mod 2 ^ 64 - 2 ^ 63.

Definition digitVal (c : ascii) : option Z :=
  let n := Z.of_nat (nat_of_ascii c) in
  if (48 <=? n) && (n <=? 57) then Some (n - 48) else None.

Definition digitChar (d : Z) : ascii := ascii_of_nat (Z.to_nat (48 + d)).

(** The digit loop of [ParseUint]: every byte must be a decimal digit. *)
Fixpoint parseDigits (s : string) (acc : Z) : option Z :=
  match s with
  | EmptyString => Some acc
  | String c s' =>
      match digitVal c with
      | Some d => parseDigits s' (10 * acc + d)
      | None => None
      end
  end.

(** [strconv.ParseInt(s, 10, 64)]: an optional sign, then one or more
    decimal digits; the value must fit a signed 64-bit integer. *)
Definition ParseInt (s : string) : result Z :=
  match s with
  | EmptyString => Err ErrSyntax
  | String c s' =>
      let '(neg, ds) :=
        if Ascii.eqb c "-" then (true, s')
        else if Ascii.eqb c "+" then (false, s')
        else (false, s) in
      match ds with
      | EmptyString => Err ErrSyntax
      | _ =>
          match parseDigits ds 0 with
          | None => Err ErrSyntax
          | Some u =>
              let z := if neg then - u else u in
              if inInt64 z then Ok z else Err ErrRange
          end
      end
  end.

(** [strconv.Atoi]: [ParseInt(s, 10, 0)] converted to [int] (64 bits). *)
Definition Atoi (s : string) : result Z := ParseInt s.

(** The digit loop of [formatBits]: least significant digit first, each
    one put in front of what has been produced. *)
Fixpoint fmtDigits (fuel : nat) (u : Z) (acc : string) : string :=
  match fuel with
  | O => acc
  | S fuel' =>
      let acc' := String (digitChar (u mod 10)) acc in
      if u <? 10 then acc' else fmtDigits fuel' (u / 10) acc'
  end.

(** A number below [2 ^ k] has at most [k] decimal digits. *)
Definition digitsFuel (u : Z) : nat := S (Z.to_nat (Z.log2 u)).

(** [strconv.Itoa]. *)
Definition Itoa (z : Z) : string :=
  if z <? 0 then String "-" (fmtDigits (digitsFuel (- z)) (- z) "")
  else fmtDigits (digitsFuel z) z "".

End strconv.

(** ** Wire values (resp.go) *)

Definition STRING : ascii := "+".
Definition ERROR : ascii := "-".
Definition INTEGER : ascii := ":".
Definition BULK : ascii := "$".
Definition ARRAY : ascii := "*".

(** [type Value struct]. A nil and an empty [array] slice are both [[]]. *)
#[local] Set Warnings "-register-all".
Inductive Value : Type :=
  mkValue { typ : string; str : string; num : Z; bulk : string;
            array : list Value }.

(** The zero value [Value{}]. *)
Definition Value0 : Value := mkValue "" "" 0 "" [].

(** ** Encoding: [Value.Marshal] *)

Definition marshalString (v : Value) : bytes :=
  [STRING] ++ bytes_of (str v) ++ [CR; LF].

Definition marshalBulk (v : Value) : bytes :=
  [BULK] ++ bytes_of (strconv.Itoa (Z.of_nat (String.length (bulk v))))
    ++ [CR; LF] ++ bytes_of (bulk v) ++ [CR; LF].

Definition marshallError (v : Value) : bytes :=
  [ERROR] ++ bytes_of (str v) ++ [CR; LF].

Definition marshallNull (v : Value) : bytes :=
  bytes_of "$-1" ++ [CR; LF].

(** The body of [marshalArray], given the encoder of the elements. *)
Definition marshalArray_with (Marshal : Value -> bytes) (v : Value) : bytes :=
  let len := length (array v) in
  [ARRAY] ++ bytes_of (strconv.Itoa (Z.of_nat len)) ++ [CR; LF]
    ++ concat (map Marshal (array v)).

Fixpoint Marshal (v : Value) : bytes :=
  if String.eqb (typ v) "array" then marshalArray_with Marshal v
  else if String.eqb (typ v) "bulk" then marshalBulk v
  else if String.eqb (typ v) "string" then marshalString v
  else if String.eqb (typ v) "null" then marshallNull v
  else if String.eqb (typ v) "error" then marshallError v
  else [].

Definition marshalArray : Value -> bytes := marshalArray_with Marshal.

(** ** The buffered reader ([bufio.Reader] over a file or byte slice)

    [bufio.NewReader] allocates a buffer of [defaultBufSize] bytes. The bytes
    held in the buffer are always a prefix of what remains of the stream, so
    the state is the remaining stream [pending] together with the number
    [avail] of its leading bytes that are in the buffer ([b.w - b.r]). The
    underlying reader (an [*os.File] on a regular file) delivers as many
    bytes as are asked for, or all that is left. *)

Definition defaultBufSize : nat := 4096.

Record Reader : Type := mkReader { pending : bytes; avail : nat }.

(** [bufio.NewReader]: nothing read yet, the buffer empty. *)
Definition NewReader (rd : bytes) : Reader := mkReader rd 0.

(** [NewRESP]: a [RESP] is its buffered reader. *)
Definition NewRESP (rd : bytes) : Reader := NewReader rd.

(** What [fill] brings into an empty buffer. *)
Definition refill (s : bytes) : nat := Nat.min defaultBufSize (length s).

(** [bufio.Reader.ReadByte]: refills an empty buffer, then takes one byte. *)
Definition ReadByte (r : Reader) : result (ascii * Reader) :=
  match pending r with
  | [] => Err EOF
  | b :: s =>
      let a := if Nat.eqb (avail r) 0 then refill (pending r) else avail r in
      Ok (b, mkReader s (a - 1)%nat)
  end.

(** [bufio.Reader.Read(p)]. As its documentation has it, the bytes are
    taken from at most one read of the underlying stream, hence the count [n]
    may be less than [len(p)] ([io.ReadFull] is what reads exactly [len(p)]
    bytes): a buffer that is not empty gives what it holds and no more; an
    empty one is filled once, or bypassed when [p] is at least as large.
    Returns [p] as it is left, the count and the error. *)
Definition ReaderRead (p : bytes) (r : Reader)
  : bytes * (nat * option error) * Reader :=
  let s := pending r in
  if Nat.eqb (length p) 0 then (p, (0%nat, None), r)
  else
    let '(n, a) :=
      if Nat.eqb (avail r) 0 then
        if Nat.leb defaultBufSize (length p) then
          (* large read, empty buffer: straight from the stream *)
          (Nat.min (length p) (length s), 0%nat)
        else
          let n := Nat.min (length p) (refill s) in (n, (refill s - n)%nat)
      else
        let n := Nat.min (length p) (avail r) in (n, (avail r - n)%nat) in
    (firstn n s ++ skipn n p,
     (n, if Nat.eqb n 0 then Some EOF else None),
     mkReader (skipn n s) a).

(** ** Decoding: [RESP] *)

(** The loop of [readLine], one [ReadByte] per turn. With the fuel that
    [readLine] gives it the loop ends before the fuel does
    ([readLine_loop_fuel]). *)
Fixpoint readLine_loop (fuel : nat) (line : bytes) (n : Z) (r : Reader)
  : result (bytes * Z * Reader) :=
  match fuel with
  | O => Err EOF
  | S fuel' =>
      match ReadByte r with
      | Err e => Err e
      | Panic => Panic
      | Ok (b, r') =>
          let n := n + 1 in
          let line := line ++ [b] in
          if Nat.leb 2 (length line)
             && Ascii.eqb (nth (length line - 2) line NUL) CR
          then Ok (firstn (length line - 2) line, n, r')
          else readLine_loop fuel' line n r'
      end
  end.

(** [readLine]. Every turn of its loop consumes a byte, so the loop makes at
    most one turn more than there are bytes left. *)
Definition readLine (r : Reader) : result (bytes * Z * Reader) :=
  readLine_loop (S (length (pending r))) [] 0 r.

Definition readInteger (r : Reader) : result (Z * Z * Reader) :=
  match readLine r with
  | Err e => Err e
  | Panic => Panic
  | Ok (line, n, r') =>
      match strconv.ParseInt (string_of line) with
      | Err e => Err e
      | Panic => Panic
      | Ok i64 => Ok (i64, n, r')
      end
  end.

(** [make([]byte, len)] panics on a negative length (a length beyond what
    the machine can allocate is not modelled). *)
Definition make_bytes (len : Z) : result bytes :=
  if len <? 0 then Panic else Ok (repeat NUL (Z.to_nat len)).

(** [readBulk]. The results of [r.reader.Read(bulk)] and of the closing
    [r.readLine()] are dropped by the source, and so they are here. *)
Definition readBulk (r : Reader) : result (Value * Reader) :=
  match readInteger r with
  | Err e => Err e
  | Panic => Panic
  | Ok (len, _, r1) =>
      match make_bytes len with
      | Err e => Err e
      | Panic => Panic
      | Ok bulk0 =>
          let '(bulk1, _, r2) := ReaderRead bulk0 r1 in
          let v := mkValue "bulk" "" 0 (string_of bulk1) [] in
          (* readLine fails only at the end of the stream, every byte read *)
          let r3 := match readLine r2 with
                    | Ok (_, _, r') => r'
                    | _ => mkReader [] 0
                    end in
          Ok (v, r3)
      end
  end.

(** The header of [readArray]: the element count, then the element loop
    [elems], which starts at index [0] with the empty slice. *)
Definition readArray_with
    (elems : Z -> Z -> list Value -> Reader
             -> option (result (list Value * Reader)))
    (r : Reader) : option (result (Value * Reader)) :=
  match readInteger r with
  | Err e => Some (Err e)
  | Panic => Some Panic
  | Ok (len, _, r1) =>
      match elems 0 len [] r1 with
      | None => None
      | Some (Err e) => Some (Err e)
      | Some Panic => Some Panic
      | Some (Ok (arr, r2)) => Some (Ok (mkValue "array" "" 0 "" arr, r2))
      end
  end.

(** [Read] and the loop [for i := 0; i < len; i++] of [readArray], which
    call each other. [fuel] bounds the number of calls and of loop turns;
    [None] means that it ran out. *)
Fixpoint Read (fuel : nat) (r : Reader) : option (result (Value * Reader)) :=
  match fuel with
  | O => None
  | S fuel' =>
      match ReadByte r with
      | Err e => Some (Err e)
      | Panic => Some Panic
      | Ok (_type, r1) =>
          if Ascii.eqb _type ARRAY then readArray_with (readArray_loop fuel') r1
          else if Ascii.eqb _type BULK then Some (readBulk r1)
          else (* fmt.Printf("Unknown type: %v", ...) *) Some (Ok (Value0, r1))
      end
  end
with readArray_loop (fuel : nat) (i len : Z) (arr : list Value) (r : Reader)
  : option (result (list Value * Reader)) :=
  match fuel with
  | O => None
  | S fuel' =>
      if i <? len then
        match Read fuel' r with
        | None => None
        | Some (Err e) => Some (Err e)
        | Some Panic => Some Panic
        | Some (Ok (val, r')) => readArray_loop fuel' (i + 1) len (arr ++ [val]) r'
        end
      else Some (Ok (arr, r))
  end.

Definition readArray (fuel : nat) : Reader -> option (result (Value * Reader)) :=
  readArray_with (readArray_loop fuel).

(** Every call of [Read] and every turn of the loop consumes at least one
    byte or ends the decoding, so this much fuel is never used up
    ([Read_fuel_enough]). *)
Definition fuel_for (r : Reader) : nat := (2 * length (pending r) + 2)%nat.

(** [RESP.Read] on a reader. *)
Definition RESP_Read (r : Reader) : result (Value * Reader) :=
  match Read (fuel_for r) r with
  | Some res => res
  | None => Panic
  end.

(** [decode]: one value from the front of a byte stream. *)
Definition Decode (bs : bytes) : result Value :=
  match RESP_Read (NewRESP bs) with
  | Ok (v, _) => Ok v
  | Err e => Err e
  | Panic => Panic
  end.

(** ** The six kinds of wire value, as the handlers build them *)

Definition SimpleString (s : string) : Value := mkValue "string" s 0 "" [].
Definition ErrorValue (s : string) : Value := mkValue "error" s 0 "" [].
Definition Integer (n : Z) : Value := mkValue "integer" "" n "" [].
Definition BulkString (s : string) : Value := mkValue "bulk" "" 0 s [].
Definition Null : Value := mkValue "null" "" 0 "" [].
Definition Array (l : list Value) : Value := mkValue "array" "" 0 "" l.

(** ** The command engine (handlers.go) *)

(** The package-level maps [SETs] and [HSETs]. *)
Record Store : Type := mkStore {
  SETs : gmap string string;
  HSETs : gmap string (gmap string string)
}.

Definition emptyStore : Store := mkStore ∅ ∅.

(** [func([]Value) Value], acting on the store. *)
Definition handler : Type := list Value -> Store -> Value * Store.

(** [x++] on an [int]. *)
Definition incr (x : Z) : Z := strconv.wrap64 (x + 1).

Definition handlePing : handler := fun args st =>
  match args with
  | [] => (SimpleString "PONG", st)
  | a0 :: _ => (SimpleString (bulk a0), st)
  end.

Definition handleSet : handler := fun args st =>
  match args with
  | [a0; a1] =>
      let key := bulk a0 in
      let value := bulk a1 in
      (SimpleString "OK", mkStore (<[key := value]> (SETs st)) (HSETs st))
  | _ => (ErrorValue "ERR wrong number of arguments for 'set' command", st)
  end.

Definition handleGet : handler := fun args st =>
  match args with
  | [a0] =>
      let key := bulk a0 in
      match SETs st !! key with
      | None => (Null, st)
      | Some value => (BulkString value, st)
      end
  | _ => (ErrorValue "ERR wrong number of arguments for 'get' command", st)
  end.

(** One turn of the loop of [handleDel]. *)
Definition del_step (acc : gmap string string * Z) (arg : Value)
  : gmap string string * Z :=
  let '(sets, deletedCount) := acc in
  let key := bulk arg in
  match sets !! key with
  | Some _ => (delete key sets, incr deletedCount)
  | None => (sets, deletedCount)
  end.

Definition handleDel : handler := fun args st =>
  match args with
  | [] => (ErrorValue "ERR wrong number of arguments for 'del' command", st)
  | _ =>
      let '(sets, deletedCount) := fold_left del_step args (SETs st, 0) in
      (Integer deletedCount, mkStore sets (HSETs st))
  end.

(** One turn of the loop of [handleExists]. *)
Definition exists_step (sets : gmap string string) (existsCount : Z)
    (arg : Value) : Z :=
  match sets !! bulk arg with
  | Some _ => incr existsCount
  | None => existsCount
  end.

Definition handleExists : handler := fun args st =>
  match args with
  | [] => (ErrorValue "ERR wrong number of arguments for 'exists' command", st)
  | _ => (Integer (fold_left (exists_step (SETs st)) args 0), st)
  end.

Definition handleIncr : handler := fun args st =>
  match args with
  | [a0] =>
      let key := bulk a0 in
      match SETs st !! key with
      | None => (Integer 1, mkStore (<[key := "1"]> (SETs st)) (HSETs st))
      | Some value =>
          match strconv.Atoi value with
          | Ok intValue =>
              let intValue := incr intValue in
              (Integer intValue,
               mkStore (<[key := strconv.Itoa intValue]> (SETs st)) (HSETs st))
          | _ => (ErrorValue "ERR value is not an integer", st)
          end
      end
  | _ => (ErrorValue "ERR wrong number of arguments for 'incr' command", st)
  end.

Definition handleHSet : handler := fun args st =>
  match args with
  | [a0; a1; a2] =>
      let hash := bulk a0 in
      let key := bulk a1 in
      let value := bulk a2 in
      let hsets :=
        match HSETs st !! hash with
        | Some _ => HSETs st
        | None => <[hash := ∅]> (HSETs st)
        end in
      let inner := default ∅ (hsets !! hash) in
      (SimpleString "OK",
       mkStore (SETs st) (<[hash := <[key := value]> inner]> hsets))
  | _ => (ErrorValue "ERR wrong number of arguments for 'hset' command", st)
  end.

Definition handleHGet : handler := fun args st =>
  match args with
  | [a0; a1] =>
      let hash := bulk a0 in
      let key := bulk a1 in
      (* indexing a missing (nil) inner map yields "not ok" *)
      match HSETs st !! hash ≫= (fun m => m !! key) with
      | None => (Null, st)
      | Some value => (BulkString value, st)
      end
  | _ => (ErrorValue "ERR wrong number of arguments for 'hget' command", st)
  end.

(** Go leaves the order of [range] over a map unspecified; the pairs come
    here in the order of [map_to_list]. *)
Definition handleHGetAll : handler := fun args st =>
  match args with
  | [a0] =>
      let hash := bulk a0 in
      match HSETs st !! hash with
      | None => (Null, st)
      | Some value =>
          (Array (flat_map (fun kv => [BulkString kv.1; BulkString kv.2])
                    (map_to_list value)), st)
      end
  | _ => (ErrorValue "ERR wrong number of arguments for 'hgetall' command", st)
  end.

(** [var Handlers = map[string]func([]Value) Value{...}]. *)
Definition Handlers : gmap string handler :=
  list_to_map
    [ ("PING", handlePing); ("SET", handleSet); ("GET", handleGet);
      ("DEL", handleDel); ("EXISTS", handleExists); ("INCR", handleIncr);
      ("HSET", handleHSet); ("HGET", handleHGet); ("HGETALL", handleHGetAll) ].

(** ** The append-only file (aof.go)

    The file is its content. [Write] appends the encoding of a request (the
    write itself is taken to succeed); [Read] starts from offset 0 with a new
    buffered reader and hands every decoded value to [fn] until [io.EOF]. *)

Definition AOF_Write (value : Value) (file : bytes) : bytes :=
  file ++ Marshal value.

(** The loop of [AOF.Read]. Every decoded value consumes at least one byte,
    so the loop makes at most one turn more than there are bytes
    ([AOF_Read_loop_fuel]). The result is the store as [fn] has left it and
    the error returned, if any. *)
Fixpoint AOF_Read_loop (fuel : nat) (fn : Value -> Store -> result Store)
    (reader : Reader) (st : Store) : result (Store * option error) :=
  match fuel with
  | O => Panic
  | S fuel' =>
      match RESP_Read reader with
      | Err EOF => Ok (st, None)
      | Err e => Ok (st, Some e)
      | Panic => Panic
      | Ok (value, reader') =>
          match fn value st with
          | Ok st' => AOF_Read_loop fuel' fn reader' st'
          | Err e => Err e
          | Panic => Panic
          end
      end
  end.

Definition AOF_Read (fn : Value -> Store -> result Store) (file : bytes)
    (st : Store) : result (Store * option error) :=
  AOF_Read_loop (S (length file)) fn (NewRESP file) st.

(** ** Replay and dispatch (main.go) *)

Definition upperByte (c : ascii) : ascii :=
  let n := nat_of_ascii c in
  if Nat.leb 97 n && Nat.leb n 122 then ascii_of_nat (n - 32) else c.

Definition lowerByte (c : ascii) : ascii :=
  let n := nat_of_ascii c in
  if Nat.leb 65 n && Nat.leb n 90 then ascii_of_nat (n + 32) else c.

(** [strings.ToUpper] and [strings.ToLower] on ASCII text: the letters
    [a-z] / [A-Z] change case, every other byte stays. (Go also changes the
    case of letters outside ASCII; no command name has one.) *)
Fixpoint ToUpper (s : string) : string :=
  match s with
  | EmptyString => EmptyString
  | String c s' => String (upperByte c) (ToUpper s')
  end.

Fixpoint ToLower (s : string) : string :=
  match s with
  | EmptyString => EmptyString
  | String c s' => String (lowerByte c) (ToLower s')
  end.

(** The callback that [main] gives to [aof.Read]. [value.array[0]] panics on
    an empty array; an unknown command is reported and skipped. *)
Definition replay_fn (value : Value) (st : Store) : result Store :=
  match array value with
  | [] => Panic
  | v0 :: args =>
      let command := ToUpper (bulk v0) in
      match Handlers !! command with
      | None => Ok st
      | Some handler => Ok (handler args st).2
      end
  end.

(** Startup: replay of the log into the (empty) key spaces. *)
Definition replay (file : bytes) : result (Store * option error) :=
  AOF_Read replay_fn file emptyStore.

(** The commands that [handleClient] persists. *)
Definition is_write_command (command : string) : bool :=
  String.eqb command "SET" || String.eqb command "DEL"
  || String.eqb command "HSET" || String.eqb command "INCR".

(** The server: the key spaces and the log file. *)
Record Server : Type := mkServer { store : Store; aof : bytes }.

Definition freshServer : Server := mkServer emptyStore [].

(** One turn of the loop of [handleClient], from the decoded request on:
    the response written to the connection and the server afterwards. *)
Definition handleRequest (value : Value) (sv : Server) : Value * Server :=
  if negb (String.eqb (typ value) "array") || Nat.eqb (length (array value)) 0
  then (ErrorValue "ERR invalid request format", sv)
  else
    match array value with
    | [] => (ErrorValue "ERR invalid request format", sv)
    | v0 :: args =>
        let command := ToUpper (bulk v0) in
        match Handlers !! command with
        | None => (ErrorValue ("ERR unknown command: " +:+ command), sv)
        | Some handler =>
            let file :=
              if is_write_command command then AOF_Write value (aof sv)
              else aof sv in
            let '(result, st) := handler args (store sv) in
            (result, mkServer st file)
        end
    end.

(** A sequence of requests, in arrival order, on one connection. *)
Definition handleRequests (values : list Value) (sv : Server) : Server :=
  fold_left (fun sv value => (handleRequest value sv).2) values sv.

(** ** Shapes of wire values *)

(** The values made of bulk strings and arrays only, nested to any depth,
    every field that the kind does not use at its zero value: the shape of
    a request, and the only shape that the decoder produces from a
    marker it knows. *)
Fixpoint bulks_and_arrays (v : Value) : bool :=
  match v with
  | mkValue t s n b l =>
      if String.eqb t "bulk" then
        String.eqb s "" && Z.eqb n 0
        && match l with [] => true | _ => false end
      else if String.eqb t "array" then
        String.eqb s "" && Z.eqb n 0 && String.eqb b ""
        && forallb bulks_and_arrays l
      else false
  end.

(** ** Definitions used by the statements *)

(** [n] times [INCR k], one after the other: the values returned, in order,
    and the store at the end. *)
Fixpoint incr_times (n : nat) (k : string) (st : Store) : list Value * Store :=
  match n with
  | O => ([], st)
  | S n' =>
      let '(v, st1) := handleIncr [BulkString k] st in
      let '(vs, st2) := incr_times n' k st1 in
      (v :: vs, st2)
  end.

(** The arity that the command table of the specification declares. *)
Definition arity_ok (cmd : string) (n : nat) : bool :=
  if String.eqb cmd "PING" then Nat.leb n 1
  else if String.eqb cmd "SET" then Nat.eqb n 2
  else if String.eqb cmd "GET" then Nat.eqb n 1
  else if String.eqb cmd "DEL" then Nat.leb 1 n
  else if String.eqb cmd "EXISTS" then Nat.leb 1 n
  else if String.eqb cmd "INCR" then Nat.eqb n 1
  else if String.eqb cmd "HSET" then Nat.eqb n 3
  else if String.eqb cmd "HGET" then Nat.eqb n 2
  else if String.eqb cmd "HGETALL" then Nat.eqb n 1
  else true.

(** [ERR wrong number of arguments for '<cmd>' command], the command name in
    lower case. *)
Definition arity_error (cmd : string) : Value :=
  ErrorValue ("ERR wrong number of arguments for '" +:+ ToLower cmd
              +:+ "' command").

(** [fits r]: what is left of the stream is no longer than the buffer, and
    is either all in the buffer or about to be brought in by the next
    refill. Every read then finds all the bytes it asks for, as far as the
    stream has them. *)
Definition fits (r : Reader) : Prop :=
  (length (pending r) <= defaultBufSize)%nat
  /\ (avail r = length (pending r) \/ avail r = 0%nat).

(** Induction on a value with the induction hypothesis for every element
    of its array. *)
Fixpoint Value_nested_ind (P : Value -> Prop)
    (step : forall t s n b l, Forall P l -> P (mkValue t s n b l))
    (v : Value) : P v :=
  match v with
  | mkValue t s n b l =>
      step t s n b l
        ((fix all (l : list Value) : Forall P l :=
            match l with
            | [] => List.Forall_nil P
            | x :: xs =>
                List.Forall_cons P x xs (Value_nested_ind P step x) (all xs)
            end) l)
  end.

(** What the induction carries for one value: read from a stream that
    starts with its encoding, [Read] returns it and stops right after. *)
Definition reads_back (v : Value) : Prop :=
  forall r tl, fits r -> pending r = Marshal v ++ tl ->
  exists fuel r', Read fuel r = Some (Ok (v, r'))
    /\ pending r' = tl /\ fits r'.

(** The requests that [handleClient] appends to the log: non-empty arrays
    whose command, in upper case, is in the table and is one of the four
    write commands. *)
Definition logs (value : Value) : bool :=
  String.eqb (typ value) "array"
  && match array value with
     | [] => false
     | v0 :: _ =>
         let command := ToUpper (bulk v0) in
         match Handlers !! command with
         | Some _ => is_write_command command
         | None => false
         end
     end.

(** What the replay callback makes of the store (it panics only on an empty
    array, which is never logged). *)
Definition replay_step (st : Store) (value : Value) : Store :=
  match replay_fn value st with
  | Ok st' => st'
  | _ => st
  end.

(** A request [SET k v] whose value, 5000 bytes, is longer than the buffer
    of the reader. *)
Definition large_value : string := string_of (repeat "a"%char 5000).

Definition large_request : Value :=
  Array [BulkString "SET"; BulkString "k"; BulkString large_value].

(** The values that the decoder can return: arrays, bulk strings and the
    zero value (for a marker that it does not know), nested to any depth,
    with [str] empty and [num] zero throughout. *)
Fixpoint from_decoder (v : Value) : bool :=
  match v with
  | mkValue t s n b l =>
      String.eqb s "" && Z.eqb n 0
      && (if String.eqb t "array" then
            String.eqb b "" && forallb from_decoder l
          else if String.eqb t "bulk" then
            match l with [] => true | _ => false end
          else
            String.eqb t "" && String.eqb b ""
            && match l with [] => true | _ => false end)
  end.

(** [RESPWriter.Write]: the encoding of the value goes to the connection,
    which is what has been written to it (the write itself is taken to
    succeed). *)
Definition RESPWriter_Write (v : Value) (conn : bytes) : bytes :=
  conn ++ Marshal v.


(** What the induction carries for one value: its encoding is not the start
    of any other encoding, nor the other way round. *)
Definition framed (v1 : Value) : Prop :=
  forall v2 t1 t2, bulks_and_arrays v2 = true ->
  Marshal v1 ++ t1 = Marshal v2 ++ t2 -> v1 = v2 /\ t1 = t2.

(** * Properties *)

(** ** Decimal conversion *)

Section Decimal.
Import strconv.

Lemma digitVal_digitChar d : 0 <= d <= 9 -> digitVal (digitChar d) = Some d.
Proof.
  intros Hd.
  assert (Hc : d = 0 \/ d = 1 \/ d = 2 \/ d = 3 \/ d = 4 \/ d = 5 \/
               d = 6 \/ d = 7 \/ d = 8 \/ d = 9) by lia.
  repeat destruct Hc as [-> | Hc]; try subst d; reflexivity.
Qed.

Lemma parseDigits_app s1 s2 a :
  parseDigits (s1 +:+ s2) a = parseDigits s1 a ≫= parseDigits s2.
Proof.
  revert a. induction s1 as [| c s1 IH]; intros a; simpl; [done |].
  destruct (digitVal c); simpl; [apply IH | done].
Qed.

Lemma append_assoc (s1 s2 s3 : string) :
  (s1 +:+ s2) +:+ s3 = s1 +:+ (s2 +:+ s3).
Proof.
  induction s1 as [| c s1 IH]; [done |].
  change (String c ((s1 +:+ s2) +:+ s3) = String c (s1 +:+ (s2 +:+ s3))).
  by rewrite IH.
Qed.

Lemma fmtDigits_acc fuel u acc :
  fmtDigits fuel u acc = fmtDigits fuel u "" +:+ acc.
Proof.
  revert u acc. induction fuel as [| fuel IH]; intros u acc; simpl; [done |].
  destruct (u <? 10); [done |].
  rewrite (IH _ (String _ acc)), (IH _ (String _ "")).
  by rewrite append_assoc.
Qed.

Lemma parseDigits_fmtDigits fuel u :
  0 <= u < 10 ^ Z.of_nat fuel ->
  parseDigits (fmtDigits fuel u "") 0 = Some u.
Proof.
  revert u. induction fuel as [| fuel IH]; intros u Hu.
  - change (10 ^ Z.of_nat 0) with 1 in Hu.
    assert (u = 0) as -> by lia. reflexivity.
  - cbn [fmtDigits].
    assert (Hm : 0 <= u mod 10 <= 9).
    { pose proof (Z.mod_pos_bound u 10 ltac:(lia)). lia. }
    destruct (u <? 10) eqn:Hlt.
    + apply Z.ltb_lt in Hlt. rewrite Z.mod_small by lia.
      cbn [parseDigits]. rewrite digitVal_digitChar by lia. f_equal; lia.
    + apply Z.ltb_ge in Hlt.
      rewrite fmtDigits_acc, parseDigits_app, IH.
      * cbn. rewrite digitVal_digitChar by lia. cbn. f_equal.
        pose proof (Z.div_mod u 10 ltac:(lia)). lia.
      * rewrite Nat2Z.inj_succ, Z.pow_succ_r in Hu by lia.
        split; [apply Z.div_pos; lia |].
        apply Z.div_lt_upper_bound; lia.
Qed.

End Decimal.

Section DecimalRoundTrip.
Import strconv.

Lemma digitsFuel_enough u : 0 <= u -> u < 10 ^ Z.of_nat (digitsFuel u).
Proof.
  intros Hu. unfold digitsFuel.
  rewrite Nat2Z.inj_succ, Z2Nat.id by apply Z.log2_nonneg.
  destruct (Z.eq_dec u 0) as [-> | Hne]; [reflexivity |].
  pose proof (Z.log2_spec u ltac:(lia)) as [_ Hlt].
  eapply Z.lt_le_trans; [exact Hlt |].
  apply Z.pow_le_mono_l. lia.
Qed.

Lemma fmtDigits_nonempty fuel u c acc : fmtDigits fuel u (String c acc) <> "".
Proof.
  revert u c acc. induction fuel as [| fuel IH]; intros u c acc; simpl; [done |].
  destruct (u <? 10); [done | apply IH].
Qed.

Lemma Itoa_nonneg z : 0 <= z -> Itoa z = fmtDigits (digitsFuel z) z "".
Proof. intros Hz. unfold Itoa. by rewrite (proj2 (Z.ltb_ge z 0)). Qed.

Lemma parseDigits_Itoa z : 0 <= z -> parseDigits (Itoa z) 0 = Some z.
Proof.
  intros Hz. rewrite Itoa_nonneg by done.
  apply parseDigits_fmtDigits. split; [done | by apply digitsFuel_enough].
Qed.

Lemma Itoa_nonempty z : Itoa z <> "".
Proof.
  unfold Itoa, digitsFuel. destruct (z <? 0); [done |].
  cbn [fmtDigits]. destruct (z <? 10); [done | apply fmtDigits_nonempty].
Qed.

(** Decimal text holds no carriage return. *)
Lemma parseDigits_no_CR s a u : parseDigits s a = Some u -> CR ∉ bytes_of s.
Proof.
  revert a. induction s as [| c s IH]; intros a; simpl.
  - intros _. apply not_elem_of_nil.
  - destruct (digitVal c) eqn:Hc; [| done]. intros Hs.
    apply not_elem_of_cons. split; [| by eapply IH].
    intros <-. discriminate Hc.
Qed.

(** [ParseInt] reads back what [Itoa] prints (for the lengths and counters
    of the program, which are never negative). *)
Lemma ParseInt_Itoa z : 0 <= z <= maxInt64 -> ParseInt (Itoa z) = Ok z.
Proof.
  intros [Hz Hmax]. pose proof (parseDigits_Itoa z Hz) as Hp.
  pose proof (Itoa_nonempty z) as Hne.
  unfold ParseInt. destruct (Itoa z) as [| c s]; [done |].
  assert (Hd : is_Some (digitVal c)).
  { simpl in Hp. destruct (digitVal c); [by eexists | done]. }
  destruct (Ascii.eqb c "-") eqn:Hminus.
  { apply Ascii.eqb_eq in Hminus. subst c. by destruct Hd. }
  destruct (Ascii.eqb c "+") eqn:Hplus.
  { apply Ascii.eqb_eq in Hplus. subst c. by destruct Hd. }
  rewrite Hp. unfold inInt64.
  rewrite (proj2 (Z.leb_le minInt64 z)), (proj2 (Z.leb_le z maxInt64)); try done.
  unfold minInt64. lia.
Qed.

Lemma Itoa_no_CR z : 0 <= z -> CR ∉ bytes_of (Itoa z).
Proof. intros Hz. eapply parseDigits_no_CR, parseDigits_Itoa, Hz. Qed.

Lemma incr_small z : minInt64 <= z < maxInt64 -> wrap64 (z + 1) = z + 1.
Proof.
  unfold wrap64, minInt64, maxInt64. intros Hz.
  rewrite Z.mod_small; lia.
Qed.

End DecimalRoundTrip.

(** ** The command engine *)

Section Engine.
Import strconv.

Implicit Types (st : Store) (k v : string) (args : list Value).

Lemma store_eta st : mkStore (SETs st) (HSETs st) = st.
Proof. by destruct st. Qed.

(** After [m] has been stored at [k], [n] further increments return
    [m + 1], ..., [m + n] and leave the decimal text of [m + n]. *)
Lemma incr_times_from (n : nat) : forall st k m,
  SETs st !! k = Some (Itoa m) ->
  0 <= m -> m + Z.of_nat n <= maxInt64 ->
  incr_times n k st =
    (map (fun i => Integer (m + Z.of_nat i)) (seq 1 n),
     mkStore (<[k := Itoa (m + Z.of_nat n)]> (SETs st)) (HSETs st)).
Proof.
  induction n as [| n IH]; intros st k m Hk Hm Hmax.
  - cbn [incr_times seq map]. rewrite Z.add_0_r, insert_id by done.
    by rewrite store_eta.
  - cbn [incr_times]. unfold handleIncr. cbn [bulk BulkString].
    rewrite Hk. unfold Atoi. rewrite ParseInt_Itoa by lia.
    unfold incr. rewrite incr_small by (unfold minInt64; lia).
    rewrite (IH _ k (m + 1)); cbn [SETs HSETs].
    + rewrite insert_insert_eq. cbn [seq map].
      rewrite <- (seq_shift n 1), map_map.
      f_equal; [f_equal |].
      * apply map_ext. intros i. f_equal. lia.
      * by replace (m + 1 + Z.of_nat n) with (m + Z.of_nat (S n)) by lia.
    + by rewrite lookup_insert_eq.
    + lia.
    + lia.
Qed.

End Engine.

Section EngineClaims.
Import strconv.

Implicit Types (st : Store) (k v s : string) (args : list Value).

(** C6. When [k] holds a string that [Atoi] does not accept, [INCR k]
    returns the error [ERR value is not an integer] and the store, the
    value at [k] included, is as it was. *)
Theorem incr_non_integer st k s :
  SETs st !! k = Some s ->
  (forall z, Atoi s <> Ok z) ->
  handleIncr [BulkString k] st
    = (ErrorValue "ERR value is not an integer", st).
Proof.
  intros Hk Hs. unfold handleIncr. cbn [bulk BulkString]. rewrite Hk.
  destruct (Atoi s) as [z | e |] eqn:Ha; [by destruct (Hs z) | done | done].
Qed.

Lemma incr_non_integer_witness :
  SETs (mkStore {["k" := "abc"]} ∅) !! "k" = Some "abc" /\
  handleIncr [BulkString "k"] (mkStore {["k" := "abc"]} ∅)
    = (ErrorValue "ERR value is not an integer", mkStore {["k" := "abc"]} ∅).
Proof.
  split; [reflexivity |].
  apply (incr_non_integer _ "k" "abc"); [reflexivity |].
  intros z. vm_compute. discriminate.
Defined.

(** C8. [SET k v] followed by [GET k] returns the bulk string [v]; [GET]
    of a key that the scalar space does not hold returns Null. *)
Theorem set_then_get st k v :
  (handleGet [BulkString k]
     (handleSet [BulkString k; BulkString v] st).2).1 = BulkString v
  /\ (SETs st !! k = None -> handleGet [BulkString k] st = (Null, st)).
Proof.
  split.
  - cbn. by rewrite lookup_insert_eq.
  - intros Hk. cbn. by rewrite Hk.
Qed.

Lemma set_then_get_witness :
  SETs emptyStore !! "k" = None /\
  handleGet [BulkString "k"] emptyStore = (Null, emptyStore).
Proof.
  split; [reflexivity |].
  apply (proj2 (set_then_get emptyStore "k" "v")). reflexivity.
Defined.

(** C9. When [k] is absent, [INCR k] returns 1 and stores ["1"]; and [N]
    increments in a row, [N >= 1] an [int], return 1, 2, ..., [N] (the
    last one [N]) and store the decimal text of [N]. *)
Theorem incr_from_absent st k :
  SETs st !! k = None ->
  handleIncr [BulkString k] st
    = (Integer 1, mkStore (<[k := "1"]> (SETs st)) (HSETs st))
  /\ forall N : nat, (1 <= N)%nat -> Z.of_nat N <= maxInt64 ->
       (incr_times N k st).1 = map (fun i => Integer (Z.of_nat i)) (seq 1 N)
       /\ last (incr_times N k st).1 = Some (Integer (Z.of_nat N))
       /\ (incr_times N k st).2
          = mkStore (<[k := Itoa (Z.of_nat N)]> (SETs st)) (HSETs st).
Proof.
  intros Hk.
  assert (Hone : handleIncr [BulkString k] st
                 = (Integer 1, mkStore (<[k := "1"]> (SETs st)) (HSETs st))).
  { unfold handleIncr. cbn [bulk BulkString]. by rewrite Hk. }
  split; [exact Hone |].
  intros [| n] HN Hmax; [lia |].
  assert (Hrun : incr_times (S n) k st =
    (map (fun i => Integer (Z.of_nat i)) (seq 1 (S n)),
     mkStore (<[k := Itoa (Z.of_nat (S n))]> (SETs st)) (HSETs st))).
  { cbn [incr_times]. rewrite Hone.
    rewrite (incr_times_from n _ k 1); cbn [SETs HSETs].
    - rewrite insert_insert_eq. cbn [seq map].
      rewrite <- (seq_shift n 1), map_map.
      f_equal; [f_equal |].
      + apply map_ext. intros i. f_equal. lia.
      + by replace (1 + Z.of_nat n) with (Z.of_nat (S n)) by lia.
    - by rewrite lookup_insert_eq.
    - lia.
    - lia. }
  rewrite Hrun. cbn [fst snd]. split; [done |]. split; [| done].
  rewrite seq_S, map_app. cbn [map]. rewrite last_snoc. do 2 f_equal; lia.
Qed.

Lemma incr_from_absent_witness :
  SETs emptyStore !! "n" = None /\ (1 <= 3)%nat /\ Z.of_nat 3 <= maxInt64 /\
  (incr_times 3 "n" emptyStore).2 = mkStore (<["n" := "3"]> ∅) ∅.
Proof.
  split; [reflexivity |]. split; [lia |].
  split; [vm_compute; discriminate |].
  apply (proj2 (incr_from_absent emptyStore "n" eq_refl) 3%nat);
    [lia | vm_compute; discriminate].
Defined.

(** C10. With two arguments or more, [PING] returns the simple string made
    of the bulk payload of the first one, which is not the arity error, and
    leaves both key spaces as they were. *)
Theorem ping_two_or_more args st :
  (2 <= length args)%nat ->
  exists a0, head args = Some a0
    /\ handlePing args st = (SimpleString (bulk a0), st)
    /\ (handlePing args st).1 <> arity_error "PING".
Proof.
  intros Hlen. destruct args as [| a0 args]; [simpl in Hlen; lia |].
  exists a0. split; [done |]. split; [done |]. cbn. discriminate.
Qed.

Lemma ping_two_or_more_witness :
  (2 <= length [BulkString "a"; BulkString "b"])%nat /\
  handlePing [BulkString "a"; BulkString "b"] emptyStore
    = (SimpleString "a", emptyStore).
Proof.
  split; [simpl; lia |].
  destruct (ping_two_or_more [BulkString "a"; BulkString "b"] emptyStore)
    as (a0 & Hhead & Hping & _); [simpl; lia |].
  injection Hhead as <-. exact Hping.
Defined.

End EngineClaims.

Section Arity.

Implicit Types (st : Store) (args : list Value).

Lemma Handlers_lookup_inv cmd h :
  Handlers !! cmd = Some h ->
  (cmd, h) ∈ [ ("PING", handlePing); ("SET", handleSet); ("GET", handleGet);
               ("DEL", handleDel); ("EXISTS", handleExists);
               ("INCR", handleIncr); ("HSET", handleHSet);
               ("HGET", handleHGet); ("HGETALL", handleHGetAll) ].
Proof. apply elem_of_list_to_map_2. Qed.

(** C7, as stated, fails for [PING]: two arguments violate its declared
    arity (0 or 1), and the handler answers with a simple string. *)
Lemma ping_arity_counterexample :
  arity_ok "PING" 2 = false
  /\ Handlers !! "PING" = Some handlePing
  /\ handlePing [BulkString "a"; BulkString "b"] emptyStore
     = (SimpleString "a", emptyStore)
  /\ SimpleString "a" <> arity_error "PING".
Proof. repeat split; try reflexivity. discriminate. Qed.

(** C7, amended. Every command of the table other than [PING], called with
    a number of arguments that its declared arity excludes, returns the
    error [ERR wrong number of arguments for '<cmd>' command] and leaves
    both key spaces as they were. *)
Theorem arity_violation cmd h args st :
  Handlers !! cmd = Some h ->
  cmd <> "PING" ->
  arity_ok cmd (length args) = false ->
  h args st = (arity_error cmd, st).
Proof.
  intros Hh Hping Har. apply Handlers_lookup_inv in Hh.
  repeat (apply elem_of_cons in Hh as [Hh | Hh];
          [injection Hh as -> -> |]);
    [done | .. | by apply elem_of_nil in Hh].
  all: destruct args as [| a0 [| a1 [| a2 [| a3 args]]]];
    first [discriminate Har | reflexivity].
Qed.

Lemma arity_violation_witness :
  Handlers !! "SET" = Some handleSet /\ "SET" <> "PING"
  /\ arity_ok "SET" (length [BulkString "k"]) = false
  /\ handleSet [BulkString "k"] emptyStore = (arity_error "SET", emptyStore).
Proof.
  split; [reflexivity |]. split; [discriminate |]. split; [reflexivity |].
  apply (arity_violation "SET" handleSet [BulkString "k"] emptyStore);
    [reflexivity | discriminate | reflexivity].
Defined.

End Arity.

(** ** The decoder always comes to an end *)

Section Termination.

Local Abbreviation L r := (length (pending r)).

Lemma ReadByte_length r b r' :
  ReadByte r = Ok (b, r') -> L r = S (L r').
Proof.
  unfold ReadByte. destruct (pending r) as [| c s] eqn:Hp; [done |].
  intros [= _ <-]. done.
Qed.

Lemma ReaderRead_length p r p' ne r' :
  ReaderRead p r = (p', ne, r') -> (L r' <= L r)%nat.
Proof.
  unfold ReaderRead. destruct (Nat.eqb (length p) 0).
  - intros [= _ _ <-]. done.
  - destruct (if Nat.eqb (avail r) 0 then _ else _) as [n a].
    intros [= _ _ <-]. cbn [pending]. rewrite length_skipn. lia.
Qed.

Lemma readLine_loop_length fuel : forall line n r l n' r',
  readLine_loop fuel line n r = Ok (l, n', r') -> (L r' < L r)%nat.
Proof.
  induction fuel as [| fuel IH]; intros line n r l n' r'; [done |].
  cbn [readLine_loop]. destruct (ReadByte r) as [[b r1] | e |] eqn:Hb; try done.
  apply ReadByte_length in Hb.
  destruct (_ && _).
  - intros [= _ _ <-]. lia.
  - intros Hl. apply IH in Hl. lia.
Qed.

(** The loop of [readLine] does not depend on its fuel, once there is more
    of it than there are bytes left. *)
Lemma readLine_loop_fuel fuel : forall fuel' line n r,
  (L r < fuel)%nat -> (L r < fuel')%nat ->
  readLine_loop fuel line n r = readLine_loop fuel' line n r.
Proof.
  induction fuel as [| fuel IH]; intros [| fuel'] line n r Hf Hf'; try lia.
  cbn [readLine_loop]. destruct (ReadByte r) as [[b r1] | e |] eqn:Hb; try done.
  apply ReadByte_length in Hb. destruct (_ && _); [done |].
  apply IH; lia.
Qed.

Lemma readInteger_length r z n r' :
  readInteger r = Ok (z, n, r') -> (L r' < L r)%nat.
Proof.
  unfold readInteger, readLine.
  destruct (readLine_loop _ _ _ r) as [[[l n1] r1] | e |] eqn:Hl; try done.
  apply readLine_loop_length in Hl.
  destruct (strconv.ParseInt _); try done. by intros [= _ _ <-].
Qed.

Lemma readBulk_length r v r' :
  readBulk r = Ok (v, r') -> (L r' < L r)%nat.
Proof.
  unfold readBulk.
  destruct (readInteger r) as [[[len n] r1] | e |] eqn:Hi; try done.
  apply readInteger_length in Hi.
  destruct (make_bytes len) as [bulk0 | e |]; try done.
  destruct (ReaderRead bulk0 r1) as [[bulk1 ne] r2] eqn:Hr.
  apply ReaderRead_length in Hr.
  intros [= _ <-]. unfold readLine.
  destruct (readLine_loop _ _ _ r2) as [[[l n1] r3] | e |] eqn:Hl; cbn; try lia.
  apply readLine_loop_length in Hl. lia.
Qed.

(** With fuel above twice the number of bytes left, neither [Read] nor the
    element loop runs out of it; and a value decoded took at least one
    byte. *)
Lemma Read_total_aux fuel :
  (forall r, (2 * L r + 1 <= fuel)%nat ->
     exists res, Read fuel r = Some res
       /\ forall v r', res = Ok (v, r') -> (L r' < L r)%nat)
  /\ (forall i len arr r, (2 * L r + 2 <= fuel)%nat ->
     exists res, readArray_loop fuel i len arr r = Some res
       /\ forall a r', res = Ok (a, r') -> (L r' <= L r)%nat).
Proof.
  induction fuel as [| fuel [IHr IHl]]; [split; intros; lia |].
  split.
  - intros r Hf. cbn [Read].
    destruct (ReadByte r) as [[b r1] | e |] eqn:Hb;
      [| by eexists | by eexists].
    apply ReadByte_length in Hb.
    destruct (Ascii.eqb b ARRAY).
    + unfold readArray_with.
      destruct (readInteger r1) as [[[len n] r2] | e |] eqn:Hi;
        [| by eexists | by eexists].
      apply readInteger_length in Hi.
      destruct (IHl 0 len [] r2 ltac:(lia)) as (res & -> & Hres).
      destruct res as [[arr r3] | e |]; eexists; (split; [done |]); try done.
      intros v r' [= _ <-]. specialize (Hres _ _ eq_refl). lia.
    + destruct (Ascii.eqb b BULK).
      * eexists. split; [done |]. intros v r' Hv.
        apply readBulk_length in Hv. lia.
      * eexists. split; [done |]. intros v r' [= _ <-]. lia.
  - intros i len arr r Hf. cbn [readArray_loop].
    destruct (i <? len); [| eexists; split; [done |]; by intros a r' [= _ <-]].
    destruct (IHr r ltac:(lia)) as (res & -> & Hres).
    destruct res as [[val r1] | e |]; [| by eexists | by eexists].
    specialize (Hres _ _ eq_refl).
    destruct (IHl (i + 1) len (arr ++ [val]) r1 ltac:(lia)) as (res & -> & Hres').
    eexists. split; [done |]. intros a r' ->.
    specialize (Hres' _ _ eq_refl). lia.
Qed.

Lemma Read_fuel_enough r : exists res, Read (fuel_for r) r = Some res.
Proof.
  destruct (proj1 (Read_total_aux (fuel_for r)) r) as (res & Hres & _);
    [unfold fuel_for; lia | by exists res].
Qed.

(** More fuel does not change a result. *)
Lemma Read_fuel_mono fuel :
  (forall fuel' r res, (fuel <= fuel')%nat ->
     Read fuel r = Some res -> Read fuel' r = Some res)
  /\ (forall fuel' i len arr r res, (fuel <= fuel')%nat ->
     readArray_loop fuel i len arr r = Some res ->
     readArray_loop fuel' i len arr r = Some res).
Proof.
  induction fuel as [| fuel [IHr IHl]]; [split; intros; done |].
  split.
  - intros [| fuel'] r res Hle; [lia |]. cbn [Read].
    destruct (ReadByte r) as [[b r1] | e |]; try done.
    destruct (Ascii.eqb b ARRAY); [| done].
    unfold readArray_with. destruct (readInteger r1) as [[[len n] r2] | e |]; try done.
    destruct (readArray_loop fuel 0 len [] r2) as [res0 |] eqn:Hl; [| done].
    by rewrite (IHl fuel' _ _ _ _ _ ltac:(lia) Hl).
  - intros [| fuel'] i len arr r res Hle; [lia |]. cbn [readArray_loop].
    destruct (i <? len); [| done].
    destruct (Read fuel r) as [res0 |] eqn:Hr; [| done].
    rewrite (IHr fuel' _ _ ltac:(lia) Hr).
    destruct res0 as [[val r1] | e |]; try done.
    apply IHl. lia.
Qed.

(** [RESP_Read] gives the result that [Read] gives with any fuel that is
    enough for it. *)
Lemma RESP_Read_fuel fuel r res :
  Read fuel r = Some res -> RESP_Read r = res.
Proof.
  intros Hr. unfold RESP_Read.
  destruct (Read_fuel_enough r) as (res' & Hres'). rewrite Hres'.
  pose proof (proj1 (Read_fuel_mono fuel) (Nat.max fuel (fuel_for r)) r res
                ltac:(lia) Hr) as H1.
  pose proof (proj1 (Read_fuel_mono (fuel_for r)) (Nat.max fuel (fuel_for r))
                r res' ltac:(lia) Hres') as H2.
  congruence.
Qed.

(** A value decoded took at least one byte of the stream. *)
Lemma RESP_Read_length r v r' : RESP_Read r = Ok (v, r') -> (L r' < L r)%nat.
Proof.
  unfold RESP_Read.
  destruct (proj1 (Read_total_aux (fuel_for r)) r) as (res & -> & Hres);
    [unfold fuel_for; lia |].
  intros ->. by apply (Hres v r').
Qed.

(** The loop of [AOF.Read] does not depend on its fuel, once there is more
    of it than there are bytes in the file. *)
Lemma AOF_Read_loop_fuel fuel : forall fuel' fn r st,
  (L r < fuel)%nat -> (L r < fuel')%nat ->
  AOF_Read_loop fuel fn r st = AOF_Read_loop fuel' fn r st.
Proof.
  induction fuel as [| fuel IH]; intros [| fuel'] fn r st Hf Hf'; try lia.
  cbn [AOF_Read_loop].
  destruct (RESP_Read r) as [[value r1] | e |] eqn:Hr; try done.
  apply RESP_Read_length in Hr.
  destruct (fn value st); try done. apply IH; lia.
Qed.

End Termination.

(** ** Reading from a stream that the buffer holds whole *)

Section Fits.

Lemma defaultBufSize_int : Z.of_nat defaultBufSize <= strconv.maxInt64.
Proof. vm_compute. discriminate. Qed.

Lemma fits_NewReader bs :
  (length bs <= defaultBufSize)%nat -> fits (NewReader bs).
Proof. intros Hlen. split; [done | by right]. Qed.

Lemma ReadByte_fits r b s :
  fits r -> pending r = b :: s ->
  exists r', ReadByte r = Ok (b, r') /\ pending r' = s /\ fits r'.
Proof.
  intros [Hlen Hav] Hp. unfold ReadByte, refill. rewrite Hp in *.
  eexists. split; [done |]. split; [done |].
  unfold fits. cbn [pending avail length] in *. split; [lia |]. left.
  destruct Hav as [-> | ->]; cbn [Nat.eqb]; lia.
Qed.

Lemma ReaderRead_fits p r :
  fits r -> (length p <= length (pending r))%nat ->
  exists ne r', ReaderRead p r = (firstn (length p) (pending r), ne, r')
    /\ pending r' = skipn (length p) (pending r) /\ fits r'.
Proof.
  intros [Hlen Hav] Hp. unfold ReaderRead, refill.
  destruct (Nat.eqb (length p) 0) eqn:Hz.
  { apply Nat.eqb_eq in Hz. rewrite Hz.
    apply nil_length_inv in Hz. subst p.
    do 2 eexists. split; [done |]. split; [done |]. by split. }
  apply Nat.eqb_neq in Hz.
  assert (Hn : exists a, (if Nat.eqb (avail r) 0
      then if Nat.leb defaultBufSize (length p)
           then (Nat.min (length p) (length (pending r)), 0%nat)
           else (Nat.min (length p) (Nat.min defaultBufSize (length (pending r))),
                 (Nat.min defaultBufSize (length (pending r))
                  - Nat.min (length p) (Nat.min defaultBufSize (length (pending r))))%nat)
      else (Nat.min (length p) (avail r),
            (avail r - Nat.min (length p) (avail r))%nat))
      = (length p, a)
      /\ (a = (length (pending r) - length p)%nat \/ a = 0%nat)).
  { destruct (Nat.eqb (avail r) 0) eqn:Ha.
    - destruct (Nat.leb defaultBufSize (length p)) eqn:Hb.
      + exists 0%nat. split; [f_equal; lia | by right].
      + eexists. split; [f_equal; lia | left; lia].
    - apply Nat.eqb_neq in Ha. destruct Hav as [Hav | Hav]; [| lia].
      eexists. split; [f_equal; lia | left; lia]. }
  destruct Hn as (a & -> & Ha).
  do 2 eexists. split; [by rewrite drop_all, app_nil_r |].
  split; [done |]. unfold fits. cbn [pending avail]. rewrite length_skipn.
  split; [lia | done].
Qed.

(** The test that ends the loop of [readLine] fails as long as no carriage
    return has been read before the last byte. *)
Lemma line_end_false line b :
  CR ∉ line ->
  Nat.leb 2 (length (line ++ [b]))
    && Ascii.eqb (nth (length (line ++ [b]) - 2) (line ++ [b]) NUL) CR = false.
Proof.
  intros Hcr. rewrite length_app. cbn [length].
  destruct line as [| c line] using rev_ind; [done |].
  rewrite length_app. cbn [length].
  replace (length line + 1 + 1 - 2)%nat with (length line) by lia.
  rewrite <- app_assoc. cbn [app]. rewrite nth_middle.
  apply andb_false_iff. right. apply Ascii.eqb_neq. intros ->.
  apply Hcr. apply elem_of_app. right. by apply list_elem_of_singleton.
Qed.

Lemma line_end_true line b :
  Nat.leb 2 (length (line ++ [CR; b]))
    && Ascii.eqb (nth (length (line ++ [CR; b]) - 2) (line ++ [CR; b]) NUL) CR
  = true.
Proof.
  rewrite length_app. cbn [length].
  replace (length line + 2 - 2)%nat with (length line) by lia.
  rewrite nth_middle.
  apply andb_true_iff. split; [apply Nat.leb_le; lia | apply Ascii.eqb_refl].
Qed.

Lemma readLine_loop_fits body : forall fuel line n r b tl,
  fits r -> pending r = body ++ CR :: b :: tl ->
  CR ∉ line -> CR ∉ body -> (length body + 2 <= fuel)%nat ->
  exists r', readLine_loop fuel line n r
               = Ok (line ++ body, n + Z.of_nat (length body) + 2, r')
    /\ pending r' = tl /\ fits r'.
Proof.
  induction body as [| c body IH]; intros fuel line n r b tl Hf Hp Hl Hb Hfuel.
  - destruct fuel as [| [| fuel]]; [simpl in Hfuel; lia .. |].
    cbn [app] in Hp.
    destruct (ReadByte_fits r _ _ Hf Hp) as (r1 & Hr1 & Hp1 & Hf1).
    destruct (ReadByte_fits r1 _ _ Hf1 Hp1) as (r2 & Hr2 & Hp2 & Hf2).
    cbn [readLine_loop]. rewrite Hr1, line_end_false by done.
    rewrite Hr2, <- app_assoc. cbn [app]. rewrite line_end_true.
    exists r2. split; [| done]. do 3 f_equal.
    + rewrite length_app. cbn [length].
      replace (length line + 2 - 2)%nat with (length line) by lia.
      by rewrite take_app_length, app_nil_r.
    + cbn [length]. lia.
  - destruct fuel as [| fuel]; [simpl in Hfuel; lia |].
    apply not_elem_of_cons in Hb as [Hc Hb].
    destruct (ReadByte_fits r _ _ Hf Hp) as (r1 & Hr1 & Hp1 & Hf1).
    cbn [readLine_loop]. rewrite Hr1, line_end_false by done.
    destruct (IH fuel (line ++ [c]) (n + 1) r1 b tl Hf1 Hp1) as (r' & Hr' & Hp' & Hf').
    + intros [H | H]%elem_of_app; [done |].
      apply list_elem_of_singleton in H. done.
    + done.
    + simpl in Hfuel. lia.
    + exists r'. split; [| done]. rewrite Hr'. do 3 f_equal.
      * by rewrite <- app_assoc.
      * cbn [length]. lia.
Qed.

Lemma readLine_fits r body b tl :
  fits r -> pending r = body ++ CR :: b :: tl -> CR ∉ body ->
  exists n r', readLine r = Ok (body, n, r') /\ pending r' = tl /\ fits r'.
Proof.
  intros Hf Hp Hb. unfold readLine.
  destruct (readLine_loop_fits body (S (length (pending r))) [] 0 r b tl)
    as (r' & Hr' & Hp' & Hf'); try done.
  - apply not_elem_of_nil.
  - rewrite Hp, length_app. cbn [length]. lia.
  - eauto.
Qed.

End Fits.

(** ** Decoding what was encoded *)

Section RoundTrip.
Import strconv.

Lemma Marshal_Array l :
  Marshal (Array l)
  = ARRAY :: bytes_of (Itoa (Z.of_nat (length l))) ++ CR :: LF
      :: concat (map Marshal l).
Proof. reflexivity. Qed.

Lemma Marshal_BulkString s :
  Marshal (BulkString s)
  = BULK :: bytes_of (Itoa (Z.of_nat (String.length s))) ++ CR :: LF
      :: bytes_of s ++ [CR; LF].
Proof. reflexivity. Qed.

Lemma length_bytes_of s : length (bytes_of s) = String.length s.
Proof. induction s as [| c s IH]; [done | simpl; by rewrite IH]. Qed.

Lemma bulks_and_arrays_inv v :
  bulks_and_arrays v = true ->
  (exists s, v = BulkString s)
  \/ (exists l, v = Array l /\ forallb bulks_and_arrays l = true).
Proof.
  destruct v as [t s n b l]. cbn [bulks_and_arrays].
  destruct (String.eqb t "bulk") eqn:Hb.
  - apply String.eqb_eq in Hb as ->.
    intros [[->%String.eqb_eq ->%Z.eqb_eq]%andb_prop Hl]%andb_prop.
    destruct l; [| done]. left. by exists b.
  - destruct (String.eqb t "array") eqn:Ha; [| done].
    apply String.eqb_eq in Ha as ->.
    intros [[[->%String.eqb_eq ->%Z.eqb_eq]%andb_prop
               ->%String.eqb_eq]%andb_prop Hl]%andb_prop.
    right. by exists l.
Qed.

Lemma readInteger_fits r z tl :
  fits r -> 0 <= z <= maxInt64 ->
  pending r = bytes_of (Itoa z) ++ CR :: LF :: tl ->
  exists n r', readInteger r = Ok (z, n, r') /\ pending r' = tl /\ fits r'.
Proof.
  intros Hf Hz Hp.
  destruct (readLine_fits r _ _ _ Hf Hp) as (n & r' & Hr & Hp' & Hf').
  { apply Itoa_no_CR. lia. }
  unfold readInteger. rewrite Hr. unfold string_of, bytes_of.
  rewrite string_of_list_ascii_of_string, ParseInt_Itoa by done. eauto.
Qed.

Lemma readBulk_fits r s tl :
  fits r ->
  pending r = bytes_of (Itoa (Z.of_nat (String.length s))) ++ CR :: LF
                :: bytes_of s ++ CR :: LF :: tl ->
  exists r', readBulk r = Ok (BulkString s, r') /\ pending r' = tl /\ fits r'.
Proof.
  intros Hf Hp.
  assert (Hlen : (String.length s <= defaultBufSize)%nat).
  { destruct Hf as [Hf _]. rewrite Hp in Hf.
    rewrite length_app in Hf. cbn [length] in Hf.
    rewrite length_app, !length_bytes_of in Hf. lia. }
  pose proof defaultBufSize_int as Hint.
  destruct (readInteger_fits r (Z.of_nat (String.length s)) _ Hf
              ltac:(lia) Hp) as (n & r1 & Hr1 & Hp1 & Hf1).
  unfold readBulk. rewrite Hr1. unfold make_bytes.
  rewrite (proj2 (Z.ltb_ge _ 0)) by lia. rewrite Nat2Z.id.
  destruct (ReaderRead_fits (repeat NUL (String.length s)) r1 Hf1)
    as (ne & r2 & Hr2 & Hp2 & Hf2).
  { rewrite repeat_length, Hp1, length_app, length_bytes_of. lia. }
  rewrite Hr2. rewrite repeat_length, Hp1 in *.
  rewrite <- length_bytes_of in Hp2 |- *.
  rewrite take_app_length. rewrite drop_app_length in Hp2.
  destruct (readLine_fits r2 [] LF tl Hf2 Hp2) as (n' & r3 & Hr3 & Hp3 & Hf3).
  { apply not_elem_of_nil. }
  rewrite Hr3. exists r3. split; [| done].
  unfold string_of, bytes_of. by rewrite string_of_list_ascii_of_string.
Qed.

End RoundTrip.

Section RoundTripRead.
Import strconv.

Lemma readArray_loop_Marshal l :
  Forall reads_back l ->
  forall i arr r tl, fits r -> pending r = concat (map Marshal l) ++ tl ->
  exists fuel r',
    readArray_loop fuel i (i + Z.of_nat (length l)) arr r
      = Some (Ok (arr ++ l, r'))
    /\ pending r' = tl /\ fits r'.
Proof.
  induction 1 as [| v l Hv _ IH]; intros i arr r tl Hf Hp.
  - exists 1%nat, r. cbn [readArray_loop length].
    rewrite (proj2 (Z.ltb_ge _ _)) by lia. by rewrite app_nil_r.
  - cbn [map concat] in Hp. rewrite <- app_assoc in Hp.
    destruct (Hv r _ Hf Hp) as (f1 & r1 & Hr1 & Hp1 & Hf1).
    destruct (IH (i + 1) (arr ++ [v]) r1 tl Hf1 Hp1) as (f2 & r2 & Hr2 & Hp2 & Hf2).
    exists (S (Nat.max f1 f2)), r2. split; [| done].
    cbn [readArray_loop length].
    rewrite (proj2 (Z.ltb_lt _ _)) by lia.
    rewrite (proj1 (Read_fuel_mono f1) _ _ _ (Nat.le_max_l f1 f2) Hr1).
    replace (i + Z.of_nat (S (length l))) with (i + 1 + Z.of_nat (length l)) by lia.
    rewrite (proj2 (Read_fuel_mono f2) _ _ _ _ _ _ (Nat.le_max_r f1 f2) Hr2).
    by rewrite <- app_assoc.
Qed.

Lemma Read_Marshal v : bulks_and_arrays v = true -> reads_back v.
Proof.
  induction v as [t s n b l IH] using Value_nested_ind. intros Hv.
  apply bulks_and_arrays_inv in Hv as [(s' & Hs) | (l' & Hl & Hall)].
  - (* a bulk string *)
    rewrite Hs. clear IH Hs.
    intros r tl Hf Hp. rewrite Marshal_BulkString in Hp.
    cbn [app] in Hp. rewrite <- !app_assoc in Hp. cbn [app] in Hp.
    destruct (ReadByte_fits r _ _ Hf Hp) as (r1 & Hr1 & Hp1 & Hf1).
    rewrite <- app_assoc in Hp1. cbn [app] in Hp1.
    destruct (readBulk_fits r1 s' tl Hf1 Hp1) as (r2 & Hr2 & Hp2 & Hf2).
    exists 1%nat, r2. split; [| done].
    cbn [Read]. rewrite Hr1.
    change (Ascii.eqb BULK ARRAY) with false.
    change (Ascii.eqb BULK BULK) with true. cbv iota. by rewrite Hr2.
  - (* an array *)
    rewrite Hl. assert (l' = l) as -> by (by injection Hl). clear Hl.
    assert (Hl : Forall reads_back l).
    { apply Forall_forall. intros x Hx.
      apply (proj1 (Forall_forall _ _) IH x Hx).
      apply (proj1 (forallb_forall _ _) Hall). by apply list_elem_of_In. }
    intros r tl Hf Hp. rewrite Marshal_Array in Hp.
    cbn [app] in Hp. rewrite <- !app_assoc in Hp. cbn [app] in Hp.
    assert (Hlen : (length l <= defaultBufSize)%nat).
    { destruct Hf as [Hf _]. rewrite Hp in Hf. cbn [length] in Hf.
      rewrite length_app in Hf. cbn [length] in Hf.
      rewrite length_app in Hf.
      assert (length l <= length (concat (map Marshal l)))%nat; [| lia].
      clear -Hall. induction l as [| x l IHl]; [done |].
      cbn [forallb] in Hall. apply andb_prop in Hall as [Hx Hall].
      cbn [map concat length]. rewrite length_app.
      specialize (IHl Hall).
      apply bulks_and_arrays_inv in Hx as [(s & ->) | (l' & -> & _)];
        [rewrite Marshal_BulkString | rewrite Marshal_Array];
        cbn [length]; lia. }
    pose proof defaultBufSize_int as Hint.
    destruct (ReadByte_fits r _ _ Hf Hp) as (r1 & Hr1 & Hp1 & Hf1).
    destruct (readInteger_fits r1 (Z.of_nat (length l)) _ Hf1 ltac:(lia) Hp1)
      as (cnt & r2 & Hr2 & Hp2 & Hf2).
    destruct (readArray_loop_Marshal l Hl 0 [] r2 tl Hf2 Hp2)
      as (fuel & r3 & Hr3 & Hp3 & Hf3).
    exists (S fuel), r3. split; [| done].
    cbn [Read]. rewrite Hr1.
    change (Ascii.eqb ARRAY ARRAY) with true. cbv iota.
    unfold readArray_with. rewrite Hr2.
    rewrite Z.add_0_l in Hr3. by rewrite Hr3.
Qed.

End RoundTripRead.

(** ** The codec *)

Section CodecClaims.

(** The general form of the round trip: whatever follows the encoding in
    the stream is left for the next read. *)
Lemma RESP_Read_Marshal v tl :
  bulks_and_arrays v = true ->
  (length (Marshal v ++ tl) <= defaultBufSize)%nat ->
  exists r', RESP_Read (NewReader (Marshal v ++ tl)) = Ok (v, r')
    /\ pending r' = tl /\ fits r'.
Proof.
  intros Hv Hlen.
  destruct (Read_Marshal v Hv (NewReader (Marshal v ++ tl)) tl)
    as (fuel & r' & Hr & Hp & Hf); [by apply fits_NewReader | done |].
  exists r'. split; [| done]. by apply (RESP_Read_fuel fuel).
Qed.

(** C2, as stated, fails for a simple string: the decoder has no case for
    the marker [+] and returns the zero value. It fails as well for a bulk
    string longer than the buffer of the reader: of the 5000 bytes of
    [large_value], the 4089 that the buffer holds after the length line come
    back, followed by 911 zero bytes. *)
Lemma decode_encode_counterexample :
  Decode (Marshal (SimpleString "OK")) = Ok Value0
  /\ Value0 <> SimpleString "OK"
  /\ Decode (Marshal (BulkString large_value))
     = Ok (BulkString (string_of (repeat "a"%char 4089 ++ repeat NUL 911))).
Proof. repeat split; try (vm_compute; reflexivity). discriminate. Qed.

(** The other kinds that do not come back: an error value decodes to the
    zero value, an integer encodes to nothing and decodes to [io.EOF], and
    decoding the null sentinel panics on [make([]byte, -1)]. *)
Lemma decode_encode_other_kinds :
  Decode (Marshal (ErrorValue "ERR")) = Ok Value0
  /\ Decode (Marshal (Integer 5)) = Err EOF
  /\ Decode (Marshal Null) = Panic.
Proof. repeat split; vm_compute; reflexivity. Qed.

(** C2, amended. A value made of bulk strings and arrays only, whose
    encoding is no longer than the buffer of the reader, decodes back to
    itself. *)
Theorem decode_encode v :
  bulks_and_arrays v = true ->
  (length (Marshal v) <= defaultBufSize)%nat ->
  Decode (Marshal v) = Ok v.
Proof.
  intros Hv Hlen.
  destruct (RESP_Read_Marshal v [] Hv) as (r' & Hr & _).
  { by rewrite app_nil_r. }
  unfold Decode, NewRESP. rewrite app_nil_r in Hr. by rewrite Hr.
Qed.

Lemma decode_encode_witness :
  bulks_and_arrays (Array [BulkString "SET"; Array [BulkString ""]]) = true
  /\ (length (Marshal (Array [BulkString "SET"; Array [BulkString ""]]))
      <= defaultBufSize)%nat
  /\ Decode (Marshal (Array [BulkString "SET"; Array [BulkString ""]]))
     = Ok (Array [BulkString "SET"; Array [BulkString ""]]).
Proof.
  split; [reflexivity |].
  split; [apply Nat.leb_le; vm_compute; reflexivity |].
  apply decode_encode; [reflexivity | apply Nat.leb_le; vm_compute; reflexivity].
Defined.

(** C3, as stated, fails: on a stream that starts with a byte that is no
    marker at all, [Read] returns the zero value and no error. *)
Lemma unknown_marker_counterexample :
  Decode (bytes_of "?" ++ [CR; LF]) = Ok Value0.
Proof. vm_compute. reflexivity. Qed.

(** C3, amended. On every stream whose first byte is neither [*] nor [$],
    [Read] consumes that byte and returns the zero value with no error. *)
Theorem unknown_marker b tl :
  b <> ARRAY -> b <> BULK ->
  Decode (b :: tl) = Ok Value0
  /\ exists r', RESP_Read (NewReader (b :: tl)) = Ok (Value0, r')
       /\ pending r' = tl.
Proof.
  intros Ha Hb.
  assert (Hr : exists r', RESP_Read (NewReader (b :: tl)) = Ok (Value0, r')
                 /\ pending r' = tl).
  { exists (mkReader tl (refill (b :: tl) - 1)). split; [| done].
    apply (RESP_Read_fuel 1). cbn [Read ReadByte NewReader pending avail Nat.eqb].
    by rewrite (proj2 (Ascii.eqb_neq _ _) Ha), (proj2 (Ascii.eqb_neq _ _) Hb). }
  split; [| exact Hr]. destruct Hr as (r' & Hr & _).
  unfold Decode, NewRESP. by rewrite Hr.
Qed.

Lemma unknown_marker_witness :
  "+"%char <> ARRAY /\ "+"%char <> BULK
  /\ Decode ("+"%char :: bytes_of "OK" ++ [CR; LF]) = Ok Value0.
Proof.
  split; [discriminate |]. split; [discriminate |].
  apply (unknown_marker "+"%char (bytes_of "OK" ++ [CR; LF])); discriminate.
Defined.

(** C4, as stated, fails: a value of a kind that [Marshal] has no case for,
    an integer among them, encodes to the empty buffer, and [Marshal] has no
    error to return. *)
Lemma marshal_unknown_counterexample :
  Marshal Value0 = [] /\ Marshal (Integer 1) = [].
Proof. split; reflexivity. Qed.

(** The integers that [DEL], [EXISTS] and [INCR] return are among the
    values without a case in [Marshal]. *)
Lemma Marshal_Integer n : Marshal (Integer n) = [].
Proof. reflexivity. Qed.

(** C4, amended. A value whose kind is none of the six kinds of the wire
    protocol encodes to the empty buffer. *)
Theorem marshal_unknown v :
  typ v ∉ ["array"; "bulk"; "string"; "null"; "error"; "integer"] ->
  Marshal v = [].
Proof.
  intros Ht. destruct v as [t s n b l]. cbn [typ] in Ht.
  rewrite !not_elem_of_cons in Ht.
  destruct Ht as (Harray & Hbulk & Hstring & Hnull & Herror & _).
  cbn [Marshal typ].
  by rewrite (proj2 (String.eqb_neq _ _) Harray),
    (proj2 (String.eqb_neq _ _) Hbulk), (proj2 (String.eqb_neq _ _) Hstring),
    (proj2 (String.eqb_neq _ _) Hnull), (proj2 (String.eqb_neq _ _) Herror).
Qed.

Lemma marshal_unknown_witness :
  (typ Value0 ∉ ["array"; "bulk"; "string"; "null"; "error"; "integer"])
  /\ Marshal Value0 = [].
Proof.
  assert (H : typ Value0 ∉ ["array"; "bulk"; "string"; "null"; "error"; "integer"]).
  { intros H. repeat (apply elem_of_cons in H as [H | H]; [discriminate H |]).
    by apply elem_of_nil in H. }
  split; [exact H | exact (marshal_unknown Value0 H)].
Defined.

(** C5. The stream announces five payload bytes and ends after two: the
    decoder returns, with no error, a bulk string of five bytes, the two
    that were there and three zero bytes. *)
Theorem short_bulk_no_error :
  RESP_Read (NewReader (bytes_of "$5" ++ [CR; LF] ++ bytes_of "ab"))
  = Ok (BulkString (string_of (bytes_of "ab" ++ [NUL; NUL; NUL])),
        mkReader [] 0).
Proof. vm_compute. reflexivity. Qed.

End CodecClaims.

(** ** Replay of the log *)

Section Replay.

Implicit Types (st : Store) (sv : Server) (value : Value).

(** The handlers of the commands that are not logged only read. *)
Lemma read_only_handler cmd h args st :
  Handlers !! cmd = Some h -> is_write_command cmd = false ->
  (h args st).2 = st.
Proof.
  intros Hh Hw. apply Handlers_lookup_inv in Hh.
  repeat (apply elem_of_cons in Hh as [Hh | Hh];
          [injection Hh as -> -> |]);
    try discriminate Hw; try (by apply elem_of_nil in Hh).
  - by destruct args.
  - destruct args as [| a0 [| a1 args]]; cbn; try done.
    by destruct (SETs st !! bulk a0).
  - by destruct args.
  - destruct args as [| a0 [| a1 [| a2 args]]]; cbn; try done.
    by destruct (HSETs st !! bulk a0 ≫= _).
  - destruct args as [| a0 [| a1 args]]; cbn; try done.
    by destruct (HSETs st !! bulk a0).
Qed.

Lemma handleRequest_logged value sv :
  logs value = true ->
  (handleRequest value sv).2
  = mkServer (replay_step (store sv) value) (aof sv ++ Marshal value).
Proof.
  unfold logs, handleRequest, replay_step, replay_fn, AOF_Write.
  intros [Ht Hl]%andb_prop. rewrite Ht.
  destruct (array value) as [| v0 args]; [done |]. cbn [negb orb length Nat.eqb].
  destruct (Handlers !! ToUpper (bulk v0)) as [h |]; [| done].
  rewrite Hl. by destruct (h args (store sv)).
Qed.

Lemma handleRequest_not_logged value sv :
  logs value = false -> (handleRequest value sv).2 = sv.
Proof.
  unfold logs, handleRequest. intros Hl.
  destruct (String.eqb (typ value) "array"); [| done].
  destruct (array value) as [| v0 args]; [done |]. cbn [negb orb length Nat.eqb].
  cbn [andb] in Hl.
  destruct (Handlers !! ToUpper (bulk v0)) as [h |] eqn:Hh; [| done].
  rewrite Hl.
  pose proof (read_only_handler _ h args (store sv) Hh Hl) as Hro.
  destruct (h args (store sv)) as [res st']. cbn in Hro. subst st'.
  by destruct sv.
Qed.

(** The server after a sequence of requests: the log holds the encodings
    of the logged ones, in order, and the store is what these alone make
    of it. *)
Lemma handleRequests_spec values : forall sv,
  handleRequests values sv
  = mkServer (fold_left replay_step (filter (fun v => logs v = true) values)
                (store sv))
             (aof sv ++ concat (map Marshal
                                  (filter (fun v => logs v = true) values))).
Proof.
  induction values as [| value values IH]; intros sv.
  - cbn. rewrite app_nil_r. by destruct sv.
  - unfold handleRequests in *. cbn [fold_left]. rewrite IH.
    destruct (logs value) eqn:Hl.
    + rewrite filter_cons_True by done.
      rewrite handleRequest_logged by done. cbn [store aof fold_left map concat].
      by rewrite <- app_assoc.
    + rewrite filter_cons_False by (by rewrite Hl).
      by rewrite handleRequest_not_logged.
Qed.

End Replay.

Section ReplayLog.

Implicit Types (st : Store) (sv : Server) (value : Value).

Lemma Marshal_nonempty v : bulks_and_arrays v = true -> (1 <= length (Marshal v))%nat.
Proof.
  intros [(s & ->) | (l & -> & _)]%bulks_and_arrays_inv;
    [rewrite Marshal_BulkString | rewrite Marshal_Array]; cbn [length]; lia.
Qed.

Lemma length_concat_Marshal vs :
  Forall (fun v => bulks_and_arrays v = true) vs ->
  (length vs <= length (concat (map Marshal vs)))%nat.
Proof.
  induction 1 as [| v vs Hv _ IH]; [done |].
  cbn [map concat length]. rewrite length_app.
  apply Marshal_nonempty in Hv. lia.
Qed.

Lemma RESP_Read_end r : pending r = [] -> RESP_Read r = Err EOF.
Proof.
  intros Hp. apply (RESP_Read_fuel 1). cbn [Read]. unfold ReadByte. by rewrite Hp.
Qed.

Lemma replay_fn_logged value st :
  logs value = true -> replay_fn value st = Ok (replay_step st value).
Proof.
  unfold logs, replay_step, replay_fn. intros [_ Hl]%andb_prop.
  destruct (array value) as [| v0 args]; [done |].
  by destruct (Handlers !! ToUpper (bulk v0)).
Qed.

(** The loop of [AOF.Read] over a log that the buffer holds whole: every
    logged request is decoded as it was encoded and handed to the
    callback, and the end of the stream ends the loop without error. *)
Lemma AOF_Read_loop_log values : forall fuel r st,
  Forall (fun v => bulks_and_arrays v = true) values ->
  Forall (fun v => logs v = true) values ->
  fits r -> pending r = concat (map Marshal values) ->
  (length values < fuel)%nat ->
  AOF_Read_loop fuel replay_fn r st
  = Ok (fold_left replay_step values st, None).
Proof.
  induction values as [| value values IH]; intros fuel r st Hshape Hlogs Hf Hp Hfuel.
  - destruct fuel as [| fuel]; [lia |]. cbn [AOF_Read_loop].
    by rewrite RESP_Read_end.
  - destruct fuel as [| fuel]; [lia |]. cbn [AOF_Read_loop].
    apply Forall_cons in Hshape as [Hv Hshape].
    apply Forall_cons in Hlogs as [Hl Hlogs].
    cbn [map concat] in Hp.
    destruct (Read_Marshal value Hv r _ Hf Hp) as (f & r' & Hr & Hp' & Hf').
    rewrite (RESP_Read_fuel f _ _ Hr), replay_fn_logged by done.
    cbn [fold_left]. apply IH; try done. cbn [length] in Hfuel. lia.
Qed.

(** X27. Replay against direct execution, for a log that is no longer than
    the buffer of the reader: after any sequence of requests made of bulk
    strings and arrays, replaying the log that the server has written
    rebuilds, from empty key spaces, the very store that the server has. *)
Theorem replay_small_log values :
  Forall (fun v => bulks_and_arrays v = true) values ->
  let sv := handleRequests values freshServer in
  (length (aof sv) <= defaultBufSize)%nat ->
  replay (aof sv) = Ok (store sv, None).
Proof.
  intros Hshape sv. subst sv. rewrite handleRequests_spec.
  cbn [aof store freshServer app]. intros Hlen.
  set (logged := filter (fun v => logs v = true) values) in *.
  assert (Hshape' : Forall (fun v => bulks_and_arrays v = true) logged).
  { apply Forall_forall. intros v [_ Hv]%list_elem_of_filter.
    by apply (proj1 (Forall_forall _ _) Hshape). }
  assert (Hlogs : Forall (fun v => logs v = true) logged).
  { apply Forall_forall. by intros v [Hv _]%list_elem_of_filter. }
  unfold replay, AOF_Read. apply AOF_Read_loop_log; try done.
  - by apply fits_NewReader.
  - pose proof (length_concat_Marshal logged Hshape'). lia.
Qed.

Lemma replay_small_log_witness :
  replay (aof (handleRequests
                 [ Array [BulkString "set"; BulkString "k"; BulkString "v"];
                   Array [BulkString "INCR"; BulkString "n"];
                   Array [BulkString "GET"; BulkString "k"];
                   Array [BulkString "DEL"; BulkString "k"; BulkString "z"] ]
                 freshServer))
  = Ok (mkStore {["n" := "1"]} ∅, None).
Proof.
  apply (replay_small_log
           [ Array [BulkString "set"; BulkString "k"; BulkString "v"];
             Array [BulkString "INCR"; BulkString "n"];
             Array [BulkString "GET"; BulkString "k"];
             Array [BulkString "DEL"; BulkString "k"; BulkString "z"] ]).
  - repeat constructor.
  - apply Nat.leb_le. vm_compute. reflexivity.
Defined.

(** C1. The server that has executed [large_request] holds the 5000 bytes
    of the value at [k]; the replay of the log that it has written puts,
    at the same key, the first 4069 bytes of the value followed by 931 zero
    bytes: all that the buffer of the reader held when [readBulk] asked
    for the payload, the rest of the slice left as [make] created it. *)
Theorem replay_large_value :
  SETs (store (handleRequests [large_request] freshServer)) !! "k"
  = Some large_value
  /\ match replay (aof (handleRequests [large_request] freshServer)) with
     | Ok (st, None) =>
         SETs st !! "k"
         = Some (string_of (repeat "a"%char 4069 ++ repeat NUL 931))
     | _ => False
     end.
Proof. vm_compute. split; reflexivity. Qed.

End ReplayLog.

(** * Further properties of the command engine *)

Section ScalarSpace.
Import strconv.

Implicit Types (st : Store) (k v : string) (args : list Value).

(** X1. [SET] overwrites: of two [SET]s on one key the second alone counts.
    It leaves every other key as [GET] sees it, and the hash space, as they
    were. *)
Theorem set_last_write_wins st k v1 v2 k' :
  handleSet [BulkString k; BulkString v2]
    (handleSet [BulkString k; BulkString v1] st).2
  = handleSet [BulkString k; BulkString v2] st
  /\ (k' <> k ->
      handleGet [BulkString k'] (handleSet [BulkString k; BulkString v1] st).2
      = ((handleGet [BulkString k'] st).1,
         (handleSet [BulkString k; BulkString v1] st).2))
  /\ HSETs (handleSet [BulkString k; BulkString v1] st).2 = HSETs st.
Proof.
  split; [| split].
  - cbn. by rewrite insert_insert_eq.
  - intros Hk. cbn. rewrite lookup_insert_ne by done.
    by destruct (SETs st !! k').
  - done.
Qed.

Lemma set_last_write_wins_witness :
  "b" <> "a" /\
  handleGet [BulkString "b"]
    (handleSet [BulkString "a"; BulkString "1"] (mkStore {["b" := "2"]} ∅)).2
  = (BulkString "2", mkStore (<["a" := "1"]> {["b" := "2"]}) ∅).
Proof.
  split; [discriminate |].
  exact (proj1 (proj2 (set_last_write_wins (mkStore {["b" := "2"]} ∅)
                         "a" "1" "1" "b")) ltac:(discriminate)).
Defined.

(** The loop of [handleDel]: the keys of the arguments are gone, the other
    keys are as they were, and the counter has grown by the number of
    entries that the map has lost. *)
Lemma del_fold args : forall (m : gmap string string) (c : Z),
  exists m' c', fold_left del_step args (m, c) = (m', c')
    /\ (forall a, a ∈ args -> m' !! bulk a = None)
    /\ (forall k, k ∉ (bulk <$> args) -> m' !! k = m !! k)
    /\ (size m' <= size m)%nat
    /\ (0 <= c -> c + Z.of_nat (length args) <= maxInt64 ->
        c' = c + Z.of_nat (size m) - Z.of_nat (size m')).
Proof.
  induction args as [| a args IH]; intros m c.
  - exists m, c. split; [done |]. split; [by intros a Ha%elem_of_nil |].
    split; [done |]. split; [done | lia].
  - cbn [fold_left]. unfold del_step at 2.
    destruct (m !! bulk a) as [x |] eqn:Hm.
    + destruct (IH (delete (bulk a) m) (incr c)) as (m' & c' & -> & Hgone & Hkeep & Hsz & Hc).
      exists m', c'. split; [done |].
      pose proof (map_size_delete_Some (bulk a) m (mk_is_Some _ _ Hm)) as Hd.
      pose proof (map_size_ne_0_lookup_2 m (bulk a) (mk_is_Some _ _ Hm)) as Hpos.
      split; [| split; [| split]].
      * intros b [-> | Hb]%elem_of_cons; [| by apply Hgone].
        destruct (decide (bulk a ∈ bulk <$> args)) as [Hin | Hout].
        -- apply list_elem_of_fmap in Hin as (b & -> & Hb). by apply Hgone.
        -- rewrite Hkeep by done. apply lookup_delete_eq.
      * intros k Hk. rewrite fmap_cons in Hk.
        apply not_elem_of_cons in Hk as [Hne Hk].
        rewrite Hkeep by done. by rewrite lookup_delete_ne.
      * lia.
      * intros Hc0 Hmax. cbn [length] in Hmax. unfold incr in Hc.
        rewrite incr_small in Hc by (unfold minInt64; lia). lia.
    + destruct (IH m c) as (m' & c' & -> & Hgone & Hkeep & Hsz & Hc).
      exists m', c'. split; [done |]. split; [| split; [| split]].
      * intros b [-> | Hb]%elem_of_cons; [| by apply Hgone].
        destruct (decide (bulk a ∈ bulk <$> args)) as [Hin | Hout].
        -- apply list_elem_of_fmap in Hin as (b & -> & Hb). by apply Hgone.
        -- by rewrite Hkeep.
      * intros k Hk. rewrite fmap_cons in Hk.
        apply not_elem_of_cons in Hk as [Hne Hk]. by apply Hkeep.
      * done.
      * intros Hc0 Hmax. cbn [length] in Hmax. apply Hc; lia.
Qed.

(** X2. After [DEL], every key of the arguments is absent from the scalar
    space, every other key is as it was, and so is the hash space. *)
Theorem del_removes args st :
  args <> [] ->
  (forall a, a ∈ args -> SETs (handleDel args st).2 !! bulk a = None)
  /\ (forall k, k ∉ (bulk <$> args) ->
        SETs (handleDel args st).2 !! k = SETs st !! k)
  /\ HSETs (handleDel args st).2 = HSETs st.
Proof.
  intros Hne. destruct args as [| a0 args]; [done |].
  unfold handleDel.
  destruct (del_fold (a0 :: args) (SETs st) 0)
    as (m' & c' & -> & Hgone & Hkeep & _). by cbn.
Qed.

Lemma del_removes_witness :
  [BulkString "a"; BulkString "z"] <> [] /\
  SETs (handleDel [BulkString "a"; BulkString "z"]
          (mkStore {["a" := "1"]} ∅)).2 !! "a" = None.
Proof.
  split; [discriminate |].
  apply (proj1 (del_removes [BulkString "a"; BulkString "z"]
                  (mkStore {["a" := "1"]} ∅) ltac:(discriminate))
           (BulkString "a")).
  apply elem_of_cons. by left.
Defined.

(** X3. [DEL] returns the number of entries that the scalar space has lost:
    a key listed twice, or absent, counts once, or not at all. *)
Theorem del_count args st :
  args <> [] -> Z.of_nat (length args) <= maxInt64 ->
  (handleDel args st).1
  = Integer (Z.of_nat (size (SETs st))
             - Z.of_nat (size (SETs (handleDel args st).2))).
Proof.
  intros Hne Hlen. destruct args as [| a0 args]; [done |].
  unfold handleDel.
  destruct (del_fold (a0 :: args) (SETs st) 0)
    as (m' & c' & -> & _ & _ & _ & Hc). cbn [fst snd SETs].
  rewrite Hc by lia. f_equal; lia.
Qed.

Lemma del_count_witness :
  [BulkString "a"; BulkString "a"; BulkString "z"] <> []
  /\ Z.of_nat (length [BulkString "a"; BulkString "a"; BulkString "z"])
     <= maxInt64
  /\ (handleDel [BulkString "a"; BulkString "a"; BulkString "z"]
        (mkStore {["a" := "1"]} ∅)).1 = Integer 1.
Proof.
  split; [discriminate |]. split; [vm_compute; discriminate |].
  refine (eq_trans (del_count [BulkString "a"; BulkString "a"; BulkString "z"]
                      (mkStore {["a" := "1"]} ∅) _ _) _);
    [discriminate | vm_compute; discriminate | vm_compute; reflexivity].
Defined.

End ScalarSpace.

Section ScalarSpaceMore.
Import strconv.

Implicit Types (st : Store) (k v : string) (args : list Value).

Lemma del_fold_absent args : forall (m : gmap string string) (c : Z),
  (forall a, a ∈ args -> m !! bulk a = None) ->
  fold_left del_step args (m, c) = (m, c).
Proof.
  induction args as [| a args IH]; intros m c Habs; [done |].
  cbn [fold_left]. unfold del_step at 2.
  rewrite (Habs a) by (apply elem_of_cons; by left).
  apply IH. intros b Hb. apply Habs, elem_of_cons. by right.
Qed.

Lemma exists_fold_absent (m : gmap string string) args : forall c : Z,
  (forall a, a ∈ args -> m !! bulk a = None) ->
  fold_left (exists_step m) args c = c.
Proof.
  induction args as [| a args IH]; intros c Habs; [done |].
  cbn [fold_left]. unfold exists_step at 2.
  rewrite (Habs a) by (apply elem_of_cons; by left).
  apply IH. intros b Hb. apply Habs, elem_of_cons. by right.
Qed.

(** X4. Right after [DEL], [EXISTS] on the same keys returns 0, and a second
    [DEL] on them returns 0 and changes nothing. *)
Theorem del_then_exists args st :
  args <> [] ->
  handleExists args (handleDel args st).2
  = (Integer 0, (handleDel args st).2)
  /\ handleDel args (handleDel args st).2
     = (Integer 0, (handleDel args st).2).
Proof.
  intros Hne. destruct args as [| a0 args]; [done |].
  assert (Hgone : forall a, a ∈ a0 :: args ->
            SETs (handleDel (a0 :: args) st).2 !! bulk a = None).
  { unfold handleDel.
    by destruct (del_fold (a0 :: args) (SETs st) 0) as (m' & c' & -> & ? & _). }
  destruct (handleDel (a0 :: args) st) as [res st'] eqn:Hd. cbn [snd] in *.
  split.
  - unfold handleExists. by rewrite exists_fold_absent.
  - unfold handleDel. rewrite del_fold_absent by done. by destruct st'.
Qed.

Lemma del_then_exists_witness :
  [BulkString "a"] <> [] /\
  handleExists [BulkString "a"]
    (handleDel [BulkString "a"] (mkStore {["a" := "1"]} ∅)).2
  = (Integer 0, (handleDel [BulkString "a"] (mkStore {["a" := "1"]} ∅)).2).
Proof.
  split; [discriminate |].
  exact (proj1 (del_then_exists [BulkString "a"] (mkStore {["a" := "1"]} ∅)
                  ltac:(discriminate))).
Defined.

Lemma exists_fold (m : gmap string string) args : forall c : Z,
  0 <= c -> c + Z.of_nat (length args) <= maxInt64 ->
  fold_left (exists_step m) args c
  = c + Z.of_nat (length (filter (fun a => is_Some (m !! bulk a)) args)).
Proof.
  induction args as [| a args IH]; intros c Hc Hmax; [cbn; lia |].
  cbn [fold_left length] in *. unfold exists_step at 2.
  pose proof (length_filter (fun a => is_Some (m !! bulk a)) args) as Hf.
  destruct (m !! bulk a) as [x |] eqn:Hm.
  - rewrite filter_cons_True by (by rewrite Hm).
    unfold incr. rewrite incr_small by (unfold minInt64; lia).
    rewrite IH by lia. cbn [length]. lia.
  - rewrite filter_cons_False by (rewrite Hm; by intros [? ?]).
    by rewrite IH by lia.
Qed.

(** X5. [EXISTS] returns the number of arguments whose key the scalar space
    holds, a key listed twice counted twice, and changes nothing. *)
Theorem exists_count args st :
  args <> [] -> Z.of_nat (length args) <= maxInt64 ->
  handleExists args st
  = (Integer (Z.of_nat (length (filter (fun a => is_Some (SETs st !! bulk a))
                                  args))), st).
Proof.
  intros Hne Hlen. destruct args as [| a0 args]; [done |].
  unfold handleExists. by rewrite exists_fold by lia.
Qed.

Lemma exists_count_witness :
  [BulkString "a"; BulkString "a"; BulkString "z"] <> []
  /\ Z.of_nat (length [BulkString "a"; BulkString "a"; BulkString "z"])
     <= maxInt64
  /\ handleExists [BulkString "a"; BulkString "a"; BulkString "z"]
       (mkStore {["a" := "1"]} ∅)
     = (Integer 2, mkStore {["a" := "1"]} ∅).
Proof.
  split; [discriminate |]. split; [vm_compute; discriminate |].
  refine (eq_trans (exists_count
                      [BulkString "a"; BulkString "a"; BulkString "z"]
                      (mkStore {["a" := "1"]} ∅) _ _) _);
    [discriminate | vm_compute; discriminate | vm_compute; reflexivity].
Defined.

Lemma ParseInt_Itoa_neg z : minInt64 <= z < 0 -> ParseInt (Itoa z) = Ok z.
Proof.
  intros [Hmin Hneg]. unfold Itoa. rewrite (proj2 (Z.ltb_lt z 0)) by done.
  unfold ParseInt. change (Ascii.eqb "-" "-") with true. cbv iota.
  pose proof (parseDigits_fmtDigits (digitsFuel (- z)) (- z)) as Hp.
  rewrite Hp by (split; [lia | apply digitsFuel_enough; lia]).
  destruct (fmtDigits (digitsFuel (- z)) (- z) "") eqn:Hd.
  { unfold digitsFuel in Hd. cbn [fmtDigits] in Hd.
    destruct (- z <? 10); [done | by apply fmtDigits_nonempty in Hd]. }
  rewrite Z.opp_involutive. unfold inInt64.
  rewrite (proj2 (Z.leb_le minInt64 z)), (proj2 (Z.leb_le z maxInt64)); try done.
  unfold maxInt64. lia.
Qed.

Lemma Atoi_Itoa z : minInt64 <= z <= maxInt64 -> Atoi (Itoa z) = Ok z.
Proof.
  intros Hz. unfold Atoi. destruct (Z.lt_ge_cases z 0).
  - apply ParseInt_Itoa_neg. lia.
  - apply ParseInt_Itoa. lia.
Qed.

Lemma wrap64_range x : minInt64 <= wrap64 x <= maxInt64.
Proof.
  unfold wrap64, minInt64, maxInt64.
  pose proof (Z.mod_pos_bound (x + 2 ^ 63) (2 ^ 64) ltac:(lia)). lia.
Qed.

Lemma Atoi_range s z : Atoi s = Ok z -> minInt64 <= z <= maxInt64.
Proof.
  unfold Atoi, ParseInt. destruct s as [| c s]; [done |].
  destruct (if Ascii.eqb c "-" then _ else _) as [neg ds].
  destruct ds; [done |]. destruct (parseDigits _ 0) as [u |]; [| done].
  destruct (inInt64 _) eqn:Hr; [| done]. intros [= <-].
  unfold inInt64 in Hr. apply andb_prop in Hr as [H1%Z.leb_le H2%Z.leb_le]. lia.
Qed.

(** X6. When [INCR k] returns an integer [n], the decimal text of [n] is
    what the store holds at [k] and what [GET k] returns; [Atoi] reads it
    back as [n], so that the next [INCR k] returns [n + 1] (wrapped to 64
    bits). Nothing else in the store has changed. *)
Theorem incr_then_incr st k n :
  (handleIncr [BulkString k] st).1 = Integer n ->
  (handleIncr [BulkString k] st).2
  = mkStore (<[k := Itoa n]> (SETs st)) (HSETs st)
  /\ handleGet [BulkString k] (handleIncr [BulkString k] st).2
     = (BulkString (Itoa n), (handleIncr [BulkString k] st).2)
  /\ (handleIncr [BulkString k] (handleIncr [BulkString k] st).2).1
     = Integer (wrap64 (n + 1)).
Proof.
  intros Hn.
  assert (Hst : (handleIncr [BulkString k] st).2
                = mkStore (<[k := Itoa n]> (SETs st)) (HSETs st)
                /\ minInt64 <= n <= maxInt64).
  { revert Hn. unfold handleIncr. cbn [bulk BulkString].
    destruct (SETs st !! k) as [s |].
    - destruct (Atoi s) as [i | e |]; cbn [fst snd]; try done.
      intros [= <-]. split; [done | apply wrap64_range].
    - cbn [fst snd]. intros [= <-]. split; [done |]. done. }
  destruct Hst as [-> Hrange]. split; [done |].
  unfold handleGet, handleIncr. cbn [bulk BulkString SETs].
  rewrite lookup_insert_eq. split; [done |].
  by rewrite Atoi_Itoa.
Qed.

Lemma incr_then_incr_witness :
  (handleIncr [BulkString "k"] (mkStore {["k" := "-1"]} ∅)).1 = Integer 0
  /\ (handleIncr [BulkString "k"]
        (handleIncr [BulkString "k"] (mkStore {["k" := "-1"]} ∅)).2).1
     = Integer 1.
Proof.
  split; [reflexivity |].
  exact (proj2 (proj2 (incr_then_incr (mkStore {["k" := "-1"]} ∅) "k" 0
                         eq_refl))).
Defined.

End ScalarSpaceMore.

Section HashSpace.

Implicit Types (st : Store) (h f v : string) (args : list Value).

(** X7. [HSET h f v] followed by [HGET h f] returns the bulk string [v];
    [HGET] of any other field of any hash returns what it returned before;
    and the scalar space is as it was. *)
Theorem hset_then_hget st h f v h' f' :
  handleHGet [BulkString h; BulkString f]
    (handleHSet [BulkString h; BulkString f; BulkString v] st).2
  = (BulkString v, (handleHSet [BulkString h; BulkString f; BulkString v] st).2)
  /\ ((h', f') <> (h, f) ->
      (handleHGet [BulkString h'; BulkString f']
         (handleHSet [BulkString h; BulkString f; BulkString v] st).2).1
      = (handleHGet [BulkString h'; BulkString f'] st).1)
  /\ SETs (handleHSet [BulkString h; BulkString f; BulkString v] st).2
     = SETs st.
Proof.
  unfold handleHSet, handleHGet. cbn [bulk BulkString fst snd HSETs SETs].
  split; [| split; [| done]].
  - rewrite lookup_insert_eq. cbn. by rewrite lookup_insert_eq.
  - intros Hne. destruct (decide (h' = h)) as [-> | Hh].
    + assert (Hf : f' <> f) by congruence.
      rewrite lookup_insert_eq. cbn. rewrite lookup_insert_ne by done.
      destruct (HSETs st !! h) as [m |] eqn:Hm; cbn.
      * rewrite Hm. cbn. by destruct (m !! f').
      * rewrite lookup_insert_eq. cbn. by rewrite lookup_empty.
    + rewrite lookup_insert_ne by done.
      destruct (HSETs st !! h) as [m |] eqn:Hm.
      * by destruct (HSETs st !! h' ≫= _).
      * rewrite lookup_insert_ne by done. by destruct (HSETs st !! h' ≫= _).
Qed.

Lemma hset_then_hget_witness :
  ("h", "g") <> ("h", "f") /\
  (handleHGet [BulkString "h"; BulkString "g"]
     (handleHSet [BulkString "h"; BulkString "f"; BulkString "v"]
        emptyStore).2).1 = Null.
Proof.
  split; [discriminate |].
  exact (proj1 (proj2 (hset_then_hget emptyStore "h" "f" "v" "h" "g"))
           ltac:(discriminate)).
Defined.

End HashSpace.

Section HashAll.

Implicit Types (st : Store) (h f v : string) (args : list Value).

Lemma pairs_lookup (xs : list (string * string)) : forall i : nat,
  flat_map (fun kv => [BulkString kv.1; BulkString kv.2]) xs !! (2 * i)%nat
  = (fun kv => BulkString kv.1) <$> xs !! i
  /\ flat_map (fun kv => [BulkString kv.1; BulkString kv.2]) xs
       !! (2 * i + 1)%nat
     = (fun kv => BulkString kv.2) <$> xs !! i.
Proof.
  induction xs as [| x xs IH]; intros i; [done |].
  destruct i as [| i]; [done |].
  replace (2 * S i)%nat with (S (S (2 * i))) by lia.
  cbn [flat_map app lookup list_lookup plus]. apply IH.
Qed.

Lemma pairs_length (xs : list (string * string)) :
  length (flat_map (fun kv => [BulkString kv.1; BulkString kv.2]) xs)
  = (2 * length xs)%nat.
Proof. induction xs as [| x xs IH]; [done |]. cbn [flat_map app length]. lia. Qed.

(** X8. [HGETALL] of a hash that is not there returns Null. Of a hash that
    is there it returns an array of twice as many bulk strings as the hash
    has fields: a field and its value side by side, at positions [2i] and
    [2i + 1], for every field of the hash and for nothing else, in whatever
    order. The store is as it was. *)
Theorem hgetall_pairs st h :
  (HSETs st !! h = None -> handleHGetAll [BulkString h] st = (Null, st))
  /\ (forall m, HSETs st !! h = Some m ->
      exists l, handleHGetAll [BulkString h] st = (Array l, st)
        /\ length l = (2 * size m)%nat
        /\ forall f v, m !! f = Some v <->
             exists i : nat, l !! (2 * i)%nat = Some (BulkString f)
                             /\ l !! (2 * i + 1)%nat = Some (BulkString v)).
Proof.
  unfold handleHGetAll. cbn [bulk BulkString]. split; [by intros -> |].
  intros m ->. eexists. split; [done |].
  split; [by rewrite pairs_length, length_map_to_list |].
  intros f v. rewrite <- elem_of_map_to_list, list_elem_of_lookup. split.
  - intros [i Hi]. exists i.
    destruct (pairs_lookup (map_to_list m) i) as [-> ->]. by rewrite Hi.
  - intros (i & H1 & H2). exists i.
    destruct (pairs_lookup (map_to_list m) i) as [E1 E2].
    rewrite E1 in H1. rewrite E2 in H2.
    destruct (map_to_list m !! i) as [[f0 v0] |]; [| done].
    unfold BulkString in *. cbn in *. congruence.
Qed.

Lemma hgetall_pairs_witness :
  HSETs emptyStore !! "h" = None /\
  handleHGetAll [BulkString "h"] emptyStore = (Null, emptyStore).
Proof.
  split; [reflexivity |].
  exact (proj1 (hgetall_pairs emptyStore "h") eq_refl).
Defined.

(** X9. The first [HSET h f v] on a hash that was not there makes it the
    hash with the one field [f]: [HGETALL h] returns [f] and [v], in this
    order. *)
Theorem hset_creates_hash st h f v :
  HSETs st !! h = None ->
  handleHGetAll [BulkString h]
    (handleHSet [BulkString h; BulkString f; BulkString v] st).2
  = (Array [BulkString f; BulkString v],
     (handleHSet [BulkString h; BulkString f; BulkString v] st).2).
Proof.
  intros Hh. unfold handleHSet, handleHGetAll.
  cbn [bulk BulkString fst snd HSETs SETs]. rewrite Hh.
  rewrite !lookup_insert_eq. cbn [default].
  unfold id. rewrite insert_empty.
  by rewrite map_to_list_singleton.
Qed.

Lemma hset_creates_hash_witness :
  HSETs emptyStore !! "h" = None /\
  (handleHGetAll [BulkString "h"]
     (handleHSet [BulkString "h"; BulkString "f"; BulkString "v"]
        emptyStore).2).1
  = Array [BulkString "f"; BulkString "v"].
Proof.
  split; [reflexivity |].
  exact (f_equal fst (hset_creates_hash emptyStore "h" "f" "v" eq_refl)).
Defined.

(** X10. The two key spaces are apart: through the table of handlers, the
    commands of the scalar space ([SET], [GET], [DEL], [EXISTS], [INCR]) and
    [PING] never change the hash space, and those of the hash space ([HSET],
    [HGET], [HGETALL]) and [PING] never change the scalar space, whatever the
    arguments. *)
Theorem spaces_apart cmd hdl args st :
  Handlers !! cmd = Some hdl ->
  (cmd ∈ ["PING"; "SET"; "GET"; "DEL"; "EXISTS"; "INCR"] ->
   HSETs (hdl args st).2 = HSETs st)
  /\ (cmd ∈ ["PING"; "HSET"; "HGET"; "HGETALL"] ->
      SETs (hdl args st).2 = SETs st).
Proof.
  intros Hh. apply Handlers_lookup_inv in Hh.
  assert (Hin : forall (c : string) (l : list string),
            c ∈ l -> In c l) by (intros; by apply list_elem_of_In).
  repeat (apply elem_of_cons in Hh as [Hh | Hh]; [injection Hh as -> -> |]);
    [.. | by apply elem_of_nil in Hh].
  all: split; intros Hc; apply Hin in Hc; cbn in Hc;
    try (exfalso; intuition discriminate).
  - by destruct args.
  - by destruct args.
  - by destruct args as [| a0 [| a1 [| a2 ?]]].
  - destruct args as [| a0 [| a1 ?]]; cbn; try done.
    by destruct (SETs st !! bulk a0).
  - destruct args as [| a0 args]; [done |]. unfold handleDel.
    by destruct (fold_left del_step (a0 :: args) (SETs st, 0)).
  - by destruct args.
  - destruct args as [| a0 [| a1 ?]]; cbn; try done.
    destruct (SETs st !! bulk a0); [| done].
    by destruct (strconv.Atoi _).
  - by destruct args as [| a0 [| a1 [| a2 [| a3 ?]]]].
  - destruct args as [| a0 [| a1 [| a2 ?]]]; cbn; try done.
    by destruct (HSETs st !! bulk a0 ≫= _).
  - destruct args as [| a0 [| a1 ?]]; cbn; try done.
    by destruct (HSETs st !! bulk a0).
Qed.

Lemma spaces_apart_witness :
  Handlers !! "INCR" = Some handleIncr
  /\ "INCR" ∈ ["PING"; "SET"; "GET"; "DEL"; "EXISTS"; "INCR"]
  /\ HSETs (handleIncr [BulkString "k"] emptyStore).2 = HSETs emptyStore.
Proof.
  split; [reflexivity |].
  assert (H : "INCR" ∈ ["PING"; "SET"; "GET"; "DEL"; "EXISTS"; "INCR"]).
  { repeat (apply elem_of_cons; first [by left | right]). }
  split; [exact H |].
  exact (proj1 (spaces_apart "INCR" handleIncr [BulkString "k"] emptyStore
                  eq_refl) H).
Defined.

End HashAll.

(** * Further properties of the decoder *)

Section Lines.

Lemma ReadByte_cons r b s :
  pending r = b :: s -> exists r', ReadByte r = Ok (b, r') /\ pending r' = s.
Proof. intros Hp. unfold ReadByte. rewrite Hp. by eexists. Qed.

Lemma readLine_loop_line body : forall fuel line n r b tl,
  pending r = body ++ CR :: b :: tl ->
  CR ∉ line -> CR ∉ body -> (length body + 2 <= fuel)%nat ->
  exists r', readLine_loop fuel line n r
               = Ok (line ++ body, n + Z.of_nat (length body) + 2, r')
    /\ pending r' = tl.
Proof.
  induction body as [| c body IH]; intros fuel line n r b tl Hp Hl Hb Hfuel.
  - destruct fuel as [| [| fuel]]; [simpl in Hfuel; lia .. |].
    cbn [app] in Hp.
    destruct (ReadByte_cons r _ _ Hp) as (r1 & Hr1 & Hp1).
    destruct (ReadByte_cons r1 _ _ Hp1) as (r2 & Hr2 & Hp2).
    cbn [readLine_loop]. rewrite Hr1, line_end_false by done.
    rewrite Hr2, <- app_assoc. cbn [app]. rewrite line_end_true.
    exists r2. split; [| done]. do 3 f_equal.
    + rewrite length_app. cbn [length].
      replace (length line + 2 - 2)%nat with (length line) by lia.
      by rewrite take_app_length, app_nil_r.
    + cbn [length]. lia.
  - destruct fuel as [| fuel]; [simpl in Hfuel; lia |].
    apply not_elem_of_cons in Hb as [Hc Hb].
    destruct (ReadByte_cons r _ _ Hp) as (r1 & Hr1 & Hp1).
    cbn [readLine_loop]. rewrite Hr1, line_end_false by done.
    destruct (IH fuel (line ++ [c]) (n + 1) r1 b tl Hp1) as (r' & Hr' & Hp').
    + intros [H | H]%elem_of_app; [done |].
      apply list_elem_of_singleton in H. done.
    + done.
    + simpl in Hfuel. lia.
    + exists r'. split; [| done]. rewrite Hr'. do 3 f_equal.
      * by rewrite <- app_assoc.
      * cbn [length]. lia.
Qed.

Lemma readLine_loop_eof body : forall fuel line n r,
  CR ∉ line -> CR ∉ body ->
  (pending r = body \/ pending r = body ++ [CR]) ->
  readLine_loop fuel line n r = Err EOF.
Proof.
  induction body as [| c body IH]; intros fuel line n r Hl Hb Hp.
  - destruct fuel as [| fuel]; [done |]. cbn [readLine_loop].
    destruct Hp as [Hp | Hp].
    + unfold ReadByte. by rewrite Hp.
    + cbn [app] in Hp. destruct (ReadByte_cons r _ _ Hp) as (r1 & -> & Hp1).
      rewrite line_end_false by done.
      destruct fuel as [| fuel]; [done |]. cbn [readLine_loop].
      unfold ReadByte. by rewrite Hp1.
  - destruct fuel as [| fuel]; [done |]. cbn [readLine_loop].
    apply not_elem_of_cons in Hb as [Hc Hb].
    assert (Hp' : pending r = c :: body \/ pending r = c :: (body ++ [CR]))
      by exact Hp.
    assert (Hr : exists r1, ReadByte r = Ok (c, r1)
                   /\ (pending r1 = body \/ pending r1 = body ++ [CR])).
    { destruct Hp' as [Hp' | Hp'];
        destruct (ReadByte_cons r _ _ Hp') as (r1 & Hr1 & Hp1); eauto. }
    destruct Hr as (r1 & -> & Hp1). rewrite line_end_false by done.
    apply IH; try done.
    intros [H | H]%elem_of_app; [done |].
    apply list_elem_of_singleton in H. done.
Qed.

(** X11. [readLine] returns the bytes before the first carriage return and
    consumes them, the carriage return and the one byte that follows it,
    whatever this byte is (it is not compared with a line feed); the count
    is the number of bytes consumed. *)
Theorem readLine_first_CR r body b tl :
  pending r = body ++ CR :: b :: tl -> CR ∉ body ->
  exists r', readLine r = Ok (body, Z.of_nat (length body) + 2, r')
    /\ pending r' = tl.
Proof.
  intros Hp Hb. unfold readLine.
  destruct (readLine_loop_line body (S (length (pending r))) [] 0 r b tl)
    as (r' & Hr' & Hp'); try done.
  - apply not_elem_of_nil.
  - rewrite Hp, length_app. cbn [length]. lia.
  - exists r'. by rewrite Hr'.
Qed.

Lemma readLine_first_CR_witness :
  pending (NewReader (bytes_of "12" ++ [CR; "X"%char] ++ bytes_of "rest"))
  = bytes_of "12" ++ CR :: "X"%char :: bytes_of "rest"
  /\ (CR ∉ bytes_of "12")
  /\ exists r',
       readLine (NewReader (bytes_of "12" ++ [CR; "X"%char] ++ bytes_of "rest"))
       = Ok (bytes_of "12", Z.of_nat (length (bytes_of "12")) + 2, r')
       /\ pending r' = bytes_of "rest".
Proof.
  assert (H : CR ∉ bytes_of "12").
  { intros H. repeat (apply elem_of_cons in H as [H | H]; [discriminate H |]).
    by apply elem_of_nil in H. }
  split; [reflexivity |]. split; [exact H |].
  exact (readLine_first_CR
           (NewReader (bytes_of "12" ++ [CR; "X"%char] ++ bytes_of "rest"))
           (bytes_of "12") "X"%char (bytes_of "rest") eq_refl H).
Defined.

(** X12. [readLine] fails with [io.EOF] when the stream ends before a
    carriage return and one more byte have been read. *)
Theorem readLine_eof r body :
  CR ∉ body -> (pending r = body \/ pending r = body ++ [CR]) ->
  readLine r = Err EOF.
Proof.
  intros Hb Hp. unfold readLine.
  apply (readLine_loop_eof body); [apply not_elem_of_nil | done | done].
Qed.

Lemma readLine_eof_witness :
  (CR ∉ bytes_of "12")
  /\ pending (NewReader (bytes_of "12" ++ [CR])) = bytes_of "12" ++ [CR]
  /\ readLine (NewReader (bytes_of "12" ++ [CR])) = Err EOF.
Proof.
  assert (H : CR ∉ bytes_of "12").
  { intros H. repeat (apply elem_of_cons in H as [H | H]; [discriminate H |]).
    by apply elem_of_nil in H. }
  split; [exact H |]. split; [reflexivity |].
  exact (readLine_eof (NewReader (bytes_of "12" ++ [CR])) (bytes_of "12") H
           (or_intror eq_refl)).
Defined.

End Lines.

Section Headers.
Import strconv.

Lemma readInteger_line r body b tl :
  pending r = body ++ CR :: b :: tl -> CR ∉ body ->
  match ParseInt (string_of body) with
  | Ok z => exists n r', readInteger r = Ok (z, n, r') /\ pending r' = tl
  | Err e => readInteger r = Err e
  | Panic => readInteger r = Panic
  end.
Proof.
  intros Hp Hb.
  destruct (readLine_loop_line body (S (length (pending r))) [] 0 r b tl)
    as (r' & Hr' & Hp'); try done.
  - apply not_elem_of_nil.
  - rewrite Hp, length_app. cbn [length]. lia.
  - unfold readInteger, readLine. rewrite Hr'. cbn [app].
    destruct (ParseInt (string_of body)); eauto.
Qed.

(** X13. A length line that is not a decimal integer of 64 bits ends the
    decoding of an array or of a bulk string with the error of [ParseInt]
    (syntax or range). *)
Theorem read_bad_length r m body b tl e :
  m = ARRAY \/ m = BULK ->
  pending r = m :: body ++ CR :: b :: tl -> CR ∉ body ->
  ParseInt (string_of body) = Err e ->
  RESP_Read r = Err e.
Proof.
  intros Hm Hp Hb He. apply (RESP_Read_fuel 1). cbn [Read].
  destruct (ReadByte_cons r _ _ Hp) as (r1 & -> & Hp1).
  pose proof (readInteger_line r1 body b tl Hp1 Hb) as Hi. rewrite He in Hi.
  destruct Hm as [-> | ->].
  - change (Ascii.eqb ARRAY ARRAY) with true. cbv iota.
    unfold readArray_with. by rewrite Hi.
  - change (Ascii.eqb BULK ARRAY) with false.
    change (Ascii.eqb BULK BULK) with true. cbv iota.
    unfold readBulk. by rewrite Hi.
Qed.

Lemma read_bad_length_witness :
  RESP_Read (NewReader (ARRAY :: bytes_of "2x" ++ CR :: LF :: []))
  = Err ErrSyntax.
Proof.
  apply (read_bad_length _ ARRAY (bytes_of "2x") LF [] ErrSyntax);
    [by left | reflexivity | | reflexivity].
  intros H. repeat (apply elem_of_cons in H as [H | H]; [discriminate H |]).
  by apply elem_of_nil in H.
Defined.

(** X14. A bulk string with a negative length makes the decoder panic, in
    [make([]byte, len)]; the null sentinel [$-1] that the encoder writes is
    such a bulk string. *)
Theorem read_negative_bulk r body b tl z :
  pending r = BULK :: body ++ CR :: b :: tl -> CR ∉ body ->
  ParseInt (string_of body) = Ok z -> z < 0 ->
  RESP_Read r = Panic.
Proof.
  intros Hp Hb Hz Hneg. apply (RESP_Read_fuel 1). cbn [Read].
  destruct (ReadByte_cons r _ _ Hp) as (r1 & -> & Hp1).
  pose proof (readInteger_line r1 body b tl Hp1 Hb) as Hi. rewrite Hz in Hi.
  destruct Hi as (n & r2 & Hi & _).
  change (Ascii.eqb BULK ARRAY) with false.
  change (Ascii.eqb BULK BULK) with true. cbv iota.
  unfold readBulk, make_bytes. rewrite Hi.
  by rewrite (proj2 (Z.ltb_lt z 0)).
Qed.

Lemma read_negative_bulk_witness :
  pending (NewReader (Marshal Null)) = BULK :: bytes_of "-1" ++ CR :: LF :: []
  /\ RESP_Read (NewReader (Marshal Null)) = Panic.
Proof.
  split; [reflexivity |].
  apply (read_negative_bulk _ (bytes_of "-1") LF [] (-1));
    [reflexivity | | reflexivity | lia].
  intros H. repeat (apply elem_of_cons in H as [H | H]; [discriminate H |]).
  by apply elem_of_nil in H.
Defined.

(** X15. An array whose count is zero or negative decodes to the empty
    array: no element is read, and the stream stands right after the
    count line. *)
Theorem read_empty_array r body b tl z :
  pending r = ARRAY :: body ++ CR :: b :: tl -> CR ∉ body ->
  ParseInt (string_of body) = Ok z -> z <= 0 ->
  exists r', RESP_Read r = Ok (Array [], r') /\ pending r' = tl.
Proof.
  intros Hp Hb Hz Hneg.
  destruct (ReadByte_cons r _ _ Hp) as (r1 & Hr1 & Hp1).
  pose proof (readInteger_line r1 body b tl Hp1 Hb) as Hi. rewrite Hz in Hi.
  destruct Hi as (n & r2 & Hi & Hp2).
  exists r2. split; [| done]. apply (RESP_Read_fuel 2). cbn [Read].
  rewrite Hr1. change (Ascii.eqb ARRAY ARRAY) with true. cbv iota.
  unfold readArray_with. rewrite Hi. cbn [readArray_loop].
  by rewrite (proj2 (Z.ltb_ge 0 z)).
Qed.

Lemma read_empty_array_witness :
  exists r', RESP_Read (NewReader (ARRAY :: bytes_of "-3" ++ CR :: LF
                                     :: bytes_of "next"))
             = Ok (Array [], r')
    /\ pending r' = bytes_of "next".
Proof.
  apply (read_empty_array _ (bytes_of "-3") LF (bytes_of "next") (-3));
    [reflexivity | | reflexivity | lia].
  intros H. repeat (apply elem_of_cons in H as [H | H]; [discriminate H |]).
  by apply elem_of_nil in H.
Defined.

(** X16. The decoder fails with [io.EOF] on the empty stream, and on a
    stream that ends inside the length line of an array or of a bulk
    string. *)
Theorem read_eof r :
  (pending r = [] -> RESP_Read r = Err EOF)
  /\ (forall m body, m = ARRAY \/ m = BULK -> CR ∉ body ->
        pending r = m :: body \/ pending r = m :: body ++ [CR] ->
        RESP_Read r = Err EOF).
Proof.
  split.
  - intros Hp. apply (RESP_Read_fuel 1). cbn [Read]. unfold ReadByte.
    by rewrite Hp.
  - intros m body Hm Hb Hp. apply (RESP_Read_fuel 1). cbn [Read].
    assert (Hr : exists r1, ReadByte r = Ok (m, r1)
                   /\ (pending r1 = body \/ pending r1 = body ++ [CR])).
    { destruct Hp as [Hp | Hp];
        destruct (ReadByte_cons r _ _ Hp) as (r1 & Hr1 & Hp1); eauto. }
    destruct Hr as (r1 & -> & Hp1).
    assert (Hi : readInteger r1 = Err EOF).
    { unfold readInteger, readLine.
      by rewrite (readLine_loop_eof body _ _ _ _ (not_elem_of_nil _) Hb Hp1). }
    destruct Hm as [-> | ->].
    + change (Ascii.eqb ARRAY ARRAY) with true. cbv iota.
      unfold readArray_with. by rewrite Hi.
    + change (Ascii.eqb BULK ARRAY) with false.
      change (Ascii.eqb BULK BULK) with true. cbv iota.
      unfold readBulk. by rewrite Hi.
Qed.

Lemma read_eof_witness :
  pending (NewReader []) = [] /\ RESP_Read (NewReader []) = Err EOF.
Proof.
  split; [reflexivity |]. exact (proj1 (read_eof (NewReader [])) eq_refl).
Defined.

End Headers.

Section Payload.
Import strconv.









End Payload.

Section DecoderOutput.

Lemma Read_from_decoder fuel :
  (forall r v r', Read fuel r = Some (Ok (v, r')) -> from_decoder v = true)
  /\ (forall i len arr r arr' r',
        forallb from_decoder arr = true ->
        readArray_loop fuel i len arr r = Some (Ok (arr', r')) ->
        forallb from_decoder arr' = true).
Proof.
  induction fuel as [| fuel [IHr IHl]]; [split; intros; done |].
  split.
  - intros r v r'. cbn [Read].
    destruct (ReadByte r) as [[b r1] | e |]; try done.
    destruct (Ascii.eqb b ARRAY).
    + unfold readArray_with.
      destruct (readInteger r1) as [[[len n] r2] | e |]; try done.
      destruct (readArray_loop fuel 0 len [] r2) as [[[arr r3] | e |] |] eqn:Hl;
        try done.
      intros [= <- _]. apply IHl in Hl; [| done].
      cbn. by rewrite Hl.
    + destruct (Ascii.eqb b BULK).
      * unfold readBulk.
        destruct (readInteger r1) as [[[len n] r2] | e |]; try done.
        destruct (make_bytes len) as [bulk0 | e |]; try done.
        destruct (ReaderRead bulk0 r2) as [[bulk1 ne] r3].
        by intros [= <- _].
      * by intros [= <- _].
  - intros i len arr r arr' r' Harr. cbn [readArray_loop].
    destruct (i <? len); [| by intros [= <- _]].
    destruct (Read fuel r) as [[[val r1] | e |] |] eqn:Hr; try done.
    apply IHr in Hr. apply IHl.
    rewrite forallb_app, Harr. cbn. by rewrite Hr.
Qed.

(** X18. Whatever the stream, a value that the decoder returns is made of
    arrays, bulk strings and zero values only: never a simple string, an
    error, an integer or a null, at any depth. *)
Theorem decoder_output r v r' :
  RESP_Read r = Ok (v, r') -> from_decoder v = true.
Proof.
  unfold RESP_Read. destruct (Read (fuel_for r) r) as [res |] eqn:Hr; [| done].
  intros ->. by apply (proj1 (Read_from_decoder (fuel_for r)) r v r').
Qed.

Lemma decoder_output_witness :
  RESP_Read (NewReader (ARRAY :: bytes_of "2" ++ CR :: LF :: bytes_of "+?"))
  = Ok (Array [Value0; Value0], mkReader [] 0)
  /\ from_decoder (Array [Value0; Value0]) = true.
Proof.
  split; [vm_compute; reflexivity |].
  apply (decoder_output
           (NewReader (ARRAY :: bytes_of "2" ++ CR :: LF :: bytes_of "+?"))
           (Array [Value0; Value0]) (mkReader [] 0)).
  vm_compute. reflexivity.
Defined.

End DecoderOutput.

(** * Further properties of the replies *)

Section Replies.

Implicit Types (st : Store) (sv : Server) (args : list Value).

Lemma handler_kinds cmd h args st :
  Handlers !! cmd = Some h ->
  typ (h args st).1
    ∈ ["string"; "error"; "integer"; "bulk"; "null"; "array"].
Proof.
  intros Hh. apply Handlers_lookup_inv in Hh.
  assert (Hin : forall c : string,
            In c ["string"; "error"; "integer"; "bulk"; "null"; "array"] ->
            c ∈ ["string"; "error"; "integer"; "bulk"; "null"; "array"])
    by (intros; by apply list_elem_of_In).
  repeat (apply elem_of_cons in Hh as [Hh | Hh]; [injection Hh as -> -> |]);
    [.. | by apply elem_of_nil in Hh]; apply Hin.
  - destruct args; cbn; tauto.
  - destruct args as [| a0 [| a1 [| a2 ?]]]; cbn; tauto.
  - destruct args as [| a0 [| a1 ?]]; cbn; try tauto.
    destruct (SETs st !! bulk a0); cbn; tauto.
  - destruct args as [| a0 args]; [cbn; tauto |]. unfold handleDel.
    destruct (fold_left del_step (a0 :: args) (SETs st, 0)). cbn. tauto.
  - destruct args; cbn; tauto.
  - destruct args as [| a0 [| a1 ?]]; cbn; try tauto.
    destruct (SETs st !! bulk a0); [| cbn; tauto].
    destruct (strconv.Atoi _); cbn; tauto.
  - destruct args as [| a0 [| a1 [| a2 [| a3 ?]]]]; cbn; tauto.
  - destruct args as [| a0 [| a1 [| a2 ?]]]; cbn; try tauto.
    destruct (HSETs st !! bulk a0 ≫= _); cbn; tauto.
  - destruct args as [| a0 [| a1 ?]]; cbn; try tauto.
    destruct (HSETs st !! bulk a0); cbn; tauto.
Qed.

Lemma handleRequest_kinds value sv :
  typ (handleRequest value sv).1
    ∈ ["string"; "error"; "integer"; "bulk"; "null"; "array"].
Proof.
  assert (He : forall s, typ (ErrorValue s)
            ∈ ["string"; "error"; "integer"; "bulk"; "null"; "array"]).
  { intros s. apply elem_of_cons. right. apply elem_of_cons. by left. }
  unfold handleRequest. destruct (_ || _); [apply He |].
  destruct (array value) as [| v0 args]; [apply He |].
  destruct (Handlers !! ToUpper (bulk v0)) as [h |] eqn:Hh; [| apply He].
  pose proof (handler_kinds _ h args (store sv) Hh) as Hk.
  by destruct (h args (store sv)).
Qed.

(** X19. What [handleClient] writes to the connection for a request is empty
    exactly when the result is an integer: every other result is written,
    and the results of [DEL] and [EXISTS] with at least one argument, being
    integers, are not. *)
Theorem reply_written value sv conn :
  (RESPWriter_Write (handleRequest value sv).1 conn = conn
   <-> typ (handleRequest value sv).1 = "integer")
  /\ (forall name args,
        value = Array (BulkString name :: args) -> args <> [] ->
        ToUpper name = "DEL" \/ ToUpper name = "EXISTS" ->
        RESPWriter_Write (handleRequest value sv).1 conn = conn).
Proof.
  assert (Hiff : RESPWriter_Write (handleRequest value sv).1 conn = conn
                 <-> typ (handleRequest value sv).1 = "integer").
  { pose proof (handleRequest_kinds value sv) as Hk.
    destruct (handleRequest value sv) as [[t s n b l] sv']. cbn [fst typ] in *.
    unfold RESPWriter_Write.
    assert (Hnil : Marshal (mkValue t s n b l) = [] <-> t = "integer").
    { repeat (apply elem_of_cons in Hk as [-> | Hk]); try done.
      by apply elem_of_nil in Hk. }
    rewrite <- Hnil. split.
    - intros H. apply (app_inv_head conn). by rewrite app_nil_r.
    - intros ->. apply app_nil_r. }
  split; [exact Hiff |].
  intros name args -> Hargs Hname. apply Hiff.
  unfold handleRequest. cbn [typ array Array negb orb length Nat.eqb bulk BulkString].
  destruct args as [| a0 args]; [done |].
  destruct Hname as [-> | ->].
  - change (Handlers !! "DEL") with (Some handleDel). unfold handleDel.
    by destruct (fold_left del_step (a0 :: args) (SETs (store sv), 0)).
  - by change (Handlers !! "EXISTS") with (Some handleExists).
Qed.

Lemma reply_written_witness :
  Array [BulkString "del"; BulkString "k"]
  = Array (BulkString "del" :: [BulkString "k"])
  /\ [BulkString "k"] <> []
  /\ RESPWriter_Write
       (handleRequest (Array [BulkString "del"; BulkString "k"]) freshServer).1
       (bytes_of "+OK" ++ [CR; LF])
     = bytes_of "+OK" ++ [CR; LF].
Proof.
  split; [reflexivity |]. split; [discriminate |].
  apply (proj2 (reply_written (Array [BulkString "del"; BulkString "k"])
                  freshServer (bytes_of "+OK" ++ [CR; LF]))
           "del" [BulkString "k"] eq_refl);
    [discriminate | by left].
Defined.

End Replies.

(** * Further properties of the encoder *)

Section Framing.
Import strconv.

Lemma split_at_first (x : ascii) (l1 : bytes) : forall r1 l2 r2,
  x ∉ l1 -> x ∉ l2 -> l1 ++ x :: r1 = l2 ++ x :: r2 -> l1 = l2 /\ r1 = r2.
Proof.
  induction l1 as [| a l1 IH]; intros r1 [| b l2] r2 H1 H2 Heq; cbn in Heq.
  - by injection Heq as ->.
  - injection Heq as <- _. exfalso. apply H2, elem_of_cons. by left.
  - injection Heq as -> _. exfalso. apply H1, elem_of_cons. by left.
  - injection Heq as -> Heq.
    apply not_elem_of_cons in H1 as [_ H1].
    apply not_elem_of_cons in H2 as [_ H2].
    destruct (IH _ _ _ H1 H2 Heq) as [-> ->]. done.
Qed.

Lemma bytes_of_inj s1 s2 : bytes_of s1 = bytes_of s2 -> s1 = s2.
Proof.
  intros H. apply (f_equal string_of) in H. unfold string_of, bytes_of in H.
  by rewrite !string_of_list_ascii_of_string in H.
Qed.

Lemma Itoa_length_inj (a b : nat) :
  bytes_of (Itoa (Z.of_nat a)) = bytes_of (Itoa (Z.of_nat b)) -> a = b.
Proof.
  intros H%bytes_of_inj.
  pose proof (parseDigits_Itoa (Z.of_nat a) ltac:(lia)) as Ha.
  pose proof (parseDigits_Itoa (Z.of_nat b) ltac:(lia)) as Hb.
  rewrite H in Ha. rewrite Ha in Hb. injection Hb. lia.
Qed.

Lemma framed_list l1 :
  Forall framed l1 ->
  forall l2 t1 t2, forallb bulks_and_arrays l2 = true ->
  length l1 = length l2 ->
  concat (map Marshal l1) ++ t1 = concat (map Marshal l2) ++ t2 ->
  l1 = l2 /\ t1 = t2.
Proof.
  induction 1 as [| v1 l1 Hv _ IH]; intros [| v2 l2] t1 t2 Hl2 Hlen Heq;
    try done.
  cbn [forallb] in Hl2. apply andb_prop in Hl2 as [Hv2 Hl2].
  cbn [map concat] in Heq. rewrite <- !app_assoc in Heq.
  destruct (Hv _ _ _ Hv2 Heq) as [-> Heq'].
  destruct (IH l2 t1 t2 Hl2 ltac:(by injection Hlen) Heq') as [-> ->]. done.
Qed.

Lemma Marshal_framed v : bulks_and_arrays v = true -> framed v.
Proof.
  induction v as [t s n b l IH] using Value_nested_ind. intros Hv.
  apply bulks_and_arrays_inv in Hv as [(s1 & Hs) | (l1 & Hl & Hall)].
  - rewrite Hs. clear IH Hs. intros v2 t1 t2 Hv2 Heq.
    apply bulks_and_arrays_inv in Hv2 as [(s2 & ->) | (l2 & -> & _)].
    + rewrite !Marshal_BulkString in Heq. cbn [app] in Heq.
      injection Heq as Heq. rewrite <- !app_assoc in Heq. cbn [app] in Heq.
      apply split_at_first in Heq as [Hlen Heq];
        [| apply Itoa_no_CR; lia | apply Itoa_no_CR; lia].
      apply Itoa_length_inj in Hlen. injection Heq as Heq.
      rewrite <- !app_assoc in Heq.
      apply app_inj_1 in Heq as [Hb Heq]; [| by rewrite !length_bytes_of].
      apply bytes_of_inj in Hb as ->. by injection Heq as ->.
    + rewrite Marshal_BulkString, Marshal_Array in Heq. by cbn [app] in Heq.
  - rewrite Hl. assert (l1 = l) as -> by (by injection Hl). clear Hl.
    assert (Hl : Forall framed l).
    { apply Forall_forall. intros x Hx.
      apply (proj1 (Forall_forall _ _) IH x Hx).
      apply (proj1 (forallb_forall _ _) Hall). by apply list_elem_of_In. }
    intros v2 t1 t2 Hv2 Heq.
    apply bulks_and_arrays_inv in Hv2 as [(s2 & ->) | (l2 & -> & Hall2)].
    + rewrite Marshal_BulkString, Marshal_Array in Heq. by cbn [app] in Heq.
    + rewrite !Marshal_Array in Heq. cbn [app] in Heq.
      injection Heq as Heq. rewrite <- !app_assoc in Heq. cbn [app] in Heq.
      apply split_at_first in Heq as [Hlen Heq];
        [| apply Itoa_no_CR; lia | apply Itoa_no_CR; lia].
      apply Itoa_length_inj in Hlen. injection Heq as Heq.
      destruct (framed_list l Hl l2 t1 t2 Hall2 Hlen Heq) as [-> ->]. done.
Qed.

(** X20. The encoding frames itself: of two values made of bulk strings and
    arrays, neither encoding is the start of the other; whatever follows
    them in a stream, equal streams mean equal values and equal rests. *)
Theorem Marshal_prefix_free v1 v2 t1 t2 :
  bulks_and_arrays v1 = true -> bulks_and_arrays v2 = true ->
  Marshal v1 ++ t1 = Marshal v2 ++ t2 -> v1 = v2 /\ t1 = t2.
Proof. intros Hv1 Hv2. by apply Marshal_framed. Qed.

Lemma Marshal_prefix_free_witness :
  bulks_and_arrays (BulkString "a") = true
  /\ Marshal (BulkString "a") ++ bytes_of "x"
     = Marshal (BulkString "a") ++ bytes_of "x"
  /\ BulkString "a" = BulkString "a" /\ bytes_of "x" = bytes_of "x".
Proof.
  split; [reflexivity |]. split; [reflexivity |].
  exact (Marshal_prefix_free (BulkString "a") (BulkString "a") (bytes_of "x")
           (bytes_of "x") eq_refl eq_refl eq_refl).
Defined.

(** X21. A log determines the requests that were appended to it: two
    sequences of values made of bulk strings and arrays with the same
    concatenated encodings are the same sequence. *)
Theorem log_determines_requests vs1 vs2 :
  Forall (fun v => bulks_and_arrays v = true) vs1 ->
  Forall (fun v => bulks_and_arrays v = true) vs2 ->
  concat (map Marshal vs1) = concat (map Marshal vs2) -> vs1 = vs2.
Proof.
  intros H1. revert vs2.
  induction H1 as [| v1 vs1 Hv1 _ IH]; intros vs2 H2 Heq.
  - destruct H2 as [| v2 vs2 Hv2 _]; [done |].
    apply Marshal_nonempty in Hv2. cbn [map concat] in Heq.
    apply (f_equal length) in Heq. rewrite length_app in Heq. cbn in Heq. lia.
  - destruct H2 as [| v2 vs2 Hv2 H2].
    + apply Marshal_nonempty in Hv1. cbn [map concat] in Heq.
      apply (f_equal length) in Heq. rewrite length_app in Heq. cbn in Heq. lia.
    + cbn [map concat] in Heq.
      destruct (Marshal_framed v1 Hv1 v2 _ _ Hv2 Heq) as [-> Heq'].
      by rewrite (IH vs2 H2 Heq').
Qed.

Lemma log_determines_requests_witness :
  [Array [BulkString "SET"; BulkString "k"; BulkString "v"]]
  = [Array [BulkString "SET"; BulkString "k"; BulkString "v"]].
Proof.
  apply log_determines_requests; [repeat constructor .. | reflexivity].
Defined.

End Framing.

(** * Further properties of the log and of its replay *)

Section Log.

Implicit Types (st : Store) (sv : Server) (value : Value).






(** X24. Replay panics on a log that starts with a byte that is neither [*]
    nor [$]: the decoder returns the zero value, and the callback of [main]
    indexes its empty array. *)
Theorem replay_panics_on_unknown_marker b tl :
  b <> ARRAY -> b <> BULK -> replay (b :: tl) = Panic.
Proof.
  intros Ha Hb. unfold replay, AOF_Read. cbn [AOF_Read_loop].
  assert (Hr : RESP_Read (NewRESP (b :: tl))
               = Ok (Value0, mkReader tl (refill (b :: tl) - 1))).
  { apply (RESP_Read_fuel 1).
    cbn [Read ReadByte NewRESP NewReader pending avail Nat.eqb].
    by rewrite (proj2 (Ascii.eqb_neq _ _) Ha), (proj2 (Ascii.eqb_neq _ _) Hb). }
  by rewrite Hr.
Qed.

Lemma replay_panics_on_unknown_marker_witness :
  "+"%char <> ARRAY /\ "+"%char <> BULK
  /\ replay ("+"%char :: bytes_of "OK" ++ [CR; LF]) = Panic.
Proof.
  split; [discriminate |]. split; [discriminate |].
  apply replay_panics_on_unknown_marker; discriminate.
Defined.

End Log.

Section ReplayEnd.
Import strconv.

Implicit Types (st : Store) (value : Value).

(** The loop of [AOF.Read] over the logged requests at the head of a stream
    that the buffer holds whole: it executes them and goes on with what
    follows them. *)
Lemma AOF_Read_loop_head values : forall fuel r st tl,
  Forall (fun v => bulks_and_arrays v = true) values ->
  Forall (fun v => logs v = true) values ->
  fits r -> pending r = concat (map Marshal values) ++ tl ->
  exists r',
    AOF_Read_loop (length values + fuel) replay_fn r st
    = AOF_Read_loop fuel replay_fn r' (fold_left replay_step values st)
    /\ pending r' = tl /\ fits r'.
Proof.
  induction values as [| value values IH]; intros fuel r st tl Hshape Hlogs Hf Hp.
  - by exists r.
  - apply Forall_cons in Hshape as [Hv Hshape].
    apply Forall_cons in Hlogs as [Hl Hlogs].
    cbn [map concat] in Hp. rewrite <- app_assoc in Hp.
    destruct (Read_Marshal value Hv r _ Hf Hp) as (f & r1 & Hr & Hp1 & Hf1).
    destruct (IH fuel r1 (replay_step st value) tl Hshape Hlogs Hf1 Hp1)
      as (r' & Hr' & Hp' & Hf').
    exists r'. split; [| done].
    cbn [length plus AOF_Read_loop].
    by rewrite (RESP_Read_fuel f _ _ Hr), replay_fn_logged.
Qed.

Lemma ParseInt_not_EOF s e : ParseInt s = Err e -> e <> EOF.
Proof.
  unfold ParseInt. destruct s as [| c s]; [by intros [= <-] |].
  destruct (if Ascii.eqb c "-" then _ else _) as [neg ds].
  destruct ds; [by intros [= <-] |].
  destruct (parseDigits _ 0); [| by intros [= <-]].
  destruct (inInt64 _); [done | by intros [= <-]].
Qed.

(** X25. Replay stops at the first record whose length line is not a
    number: the requests before it have been executed, those after it are
    not read, and the error of [ParseInt] is what [AOF.Read] returns (and
    [main] ignores). The log is no longer than the buffer of the reader. *)
Theorem replay_stops_at_bad_record values m body b tl e :
  Forall (fun v => bulks_and_arrays v = true) values ->
  Forall (fun v => logs v = true) values ->
  m = ARRAY \/ m = BULK -> CR ∉ body ->
  ParseInt (string_of body) = Err e ->
  (length (concat (map Marshal values) ++ m :: body ++ CR :: b :: tl)
   <= defaultBufSize)%nat ->
  replay (concat (map Marshal values) ++ m :: body ++ CR :: b :: tl)
  = Ok (fold_left replay_step values emptyStore, Some e).
Proof.
  intros Hshape Hlogs Hm Hb He Hlen. unfold replay, AOF_Read.
  set (file := concat (map Marshal values) ++ m :: body ++ CR :: b :: tl) in *.
  assert (Hfuel : exists fuel, S (length file) = (length values + S fuel)%nat).
  { exists (length file - length values)%nat.
    pose proof (length_concat_Marshal values Hshape).
    subst file. rewrite length_app in *. lia. }
  destruct Hfuel as (fuel & ->).
  destruct (AOF_Read_loop_head values (S fuel) (NewRESP file) emptyStore
              (m :: body ++ CR :: b :: tl) Hshape Hlogs)
    as (r' & -> & Hp' & _); [by apply fits_NewReader | done |].
  cbn [AOF_Read_loop].
  assert (Hr : RESP_Read r' = Err e).
  { apply (RESP_Read_fuel 1). cbn [Read].
    destruct (ReadByte_cons r' _ _ Hp') as (r1 & -> & Hp1).
    pose proof (readInteger_line r1 body b tl Hp1 Hb) as Hi. rewrite He in Hi.
    destruct Hm as [-> | ->].
    - change (Ascii.eqb ARRAY ARRAY) with true. cbv iota.
      unfold readArray_with. by rewrite Hi.
    - change (Ascii.eqb BULK ARRAY) with false.
      change (Ascii.eqb BULK BULK) with true. cbv iota.
      unfold readBulk. by rewrite Hi. }
  rewrite Hr. apply ParseInt_not_EOF in He. by destruct e.
Qed.

Lemma replay_stops_at_bad_record_witness :
  replay (concat (map Marshal [Array [BulkString "INCR"; BulkString "n"]])
          ++ ARRAY :: bytes_of "x" ++ CR :: LF
          :: Marshal (Array [BulkString "INCR"; BulkString "n"]))
  = Ok (mkStore {["n" := "1"]} ∅, Some ErrSyntax).
Proof.
  refine (eq_trans
            (replay_stops_at_bad_record
               [Array [BulkString "INCR"; BulkString "n"]] ARRAY (bytes_of "x")
               LF (Marshal (Array [BulkString "INCR"; BulkString "n"]))
               ErrSyntax _ _ _ _ _ _) _).
  - repeat constructor.
  - repeat constructor.
  - by left.
  - intros H. repeat (apply elem_of_cons in H as [H | H]; [discriminate H |]).
    by apply elem_of_nil in H.
  - reflexivity.
  - apply Nat.leb_le. vm_compute. reflexivity.
  - vm_compute. reflexivity.
Defined.

(** X26. A log cut inside the length line of a record replays the requests
    before it and ends as on a clean end of file: [AOF.Read] returns no
    error. The log is no longer than the buffer of the reader. *)
Theorem replay_ignores_cut_record values m body :
  Forall (fun v => bulks_and_arrays v = true) values ->
  Forall (fun v => logs v = true) values ->
  m = ARRAY \/ m = BULK -> CR ∉ body ->
  (length (concat (map Marshal values) ++ m :: body) <= defaultBufSize)%nat ->
  replay (concat (map Marshal values) ++ m :: body)
  = Ok (fold_left replay_step values emptyStore, None).
Proof.
  intros Hshape Hlogs Hm Hb Hlen. unfold replay, AOF_Read.
  set (file := concat (map Marshal values) ++ m :: body) in *.
  assert (Hfuel : exists fuel, S (length file) = (length values + S fuel)%nat).
  { exists (length file - length values)%nat.
    pose proof (length_concat_Marshal values Hshape).
    subst file. rewrite length_app in *. lia. }
  destruct Hfuel as (fuel & ->).
  destruct (AOF_Read_loop_head values (S fuel) (NewRESP file) emptyStore
              (m :: body) Hshape Hlogs)
    as (r' & -> & Hp' & _); [by apply fits_NewReader | done |].
  cbn [AOF_Read_loop].
  assert (Hr : RESP_Read r' = Err EOF).
  { apply (RESP_Read_fuel 1). cbn [Read].
    destruct (ReadByte_cons r' _ _ Hp') as (r1 & -> & Hp1).
    assert (Hi : readInteger r1 = Err EOF).
    { unfold readInteger, readLine.
      by rewrite (readLine_loop_eof body _ _ _ _ (not_elem_of_nil _) Hb
                    (or_introl Hp1)). }
    destruct Hm as [-> | ->].
    - change (Ascii.eqb ARRAY ARRAY) with true. cbv iota.
      unfold readArray_with. by rewrite Hi.
    - change (Ascii.eqb BULK ARRAY) with false.
      change (Ascii.eqb BULK BULK) with true. cbv iota.
      unfold readBulk. by rewrite Hi. }
  by rewrite Hr.
Qed.

Lemma replay_ignores_cut_record_witness :
  replay (concat (map Marshal [Array [BulkString "INCR"; BulkString "n"]])
          ++ ARRAY :: bytes_of "2")
  = Ok (mkStore {["n" := "1"]} ∅, None).
Proof.
  refine (eq_trans
            (replay_ignores_cut_record
               [Array [BulkString "INCR"; BulkString "n"]] ARRAY (bytes_of "2")
               _ _ _ _ _) _).
  - repeat constructor.
  - repeat constructor.
  - by left.
  - intros H. repeat (apply elem_of_cons in H as [H | H]; [discriminate H |]).
    by apply elem_of_nil in H.
  - apply Nat.leb_le. vm_compute. reflexivity.
  - vm_compute. reflexivity.
Defined.

End ReplayEnd.
